(** * xes-to-csv: the conversion of an XES event log into a CSV table

    A shallow embedding of [change.go] (package [xes_to_csv]) and the
    properties of its two passes: the collection of the column keys and
    the emission of one row per event.

    Go strings are byte sequences: they are modelled by [string], whose
    characters are the 256 byte values.  The map [map[string]struct{}]
    that the program uses as a set is a [gset string].  A slice that is
    written by index is a list; an index out of range panics in Go and
    is [Panicked] here. *)

From Stdlib Require Import Ascii String List ZArith Lia.
From stdpp Require Import base list gmap sets strings.

Local Open Scope Z_scope.

(** ** The functions of the Go library that the program calls *)

Module strings.

(** Byte sequences are handled as lists of bytes. *)
Definition bytes (s : string) : list ascii := String.list_ascii_of_string s.
Definition of_bytes (l : list ascii) : string := String.string_of_list_ascii l.

Definition utf8 (codes : list N) : list ascii := ascii_of_N <$> codes.

(** The UTF-8 encodings of the runes for which [unicode.IsSpace] holds:
    U+0009..U+000D, U+0020, U+0085, U+00A0, U+1680, U+2000..U+200A,
    U+2028, U+2029, U+202F, U+205F and U+3000.  Go's decoder yields
    one of these runes exactly on these byte sequences (it refuses
    overlong encodings, and an invalid byte decodes to U+FFFD, which
    is no space). *)
Definition white_space : list (list ascii) :=
  utf8 <$>
    [ [0x09]; [0x0A]; [0x0B]; [0x0C]; [0x0D]; [0x20];
      [0xC2; 0x85]; [0xC2; 0xA0];
      [0xE1; 0x9A; 0x80];
      [0xE2; 0x80; 0x80]; [0xE2; 0x80; 0x81]; [0xE2; 0x80; 0x82];
      [0xE2; 0x80; 0x83]; [0xE2; 0x80; 0x84]; [0xE2; 0x80; 0x85];
      [0xE2; 0x80; 0x86]; [0xE2; 0x80; 0x87]; [0xE2; 0x80; 0x88];
      [0xE2; 0x80; 0x89]; [0xE2; 0x80; 0x8A];
      [0xE2; 0x80; 0xA8]; [0xE2; 0x80; 0xA9]; [0xE2; 0x80; 0xAF];
      [0xE2; 0x81; 0x9F];
      [0xE3; 0x80; 0x80] ]%N.

(** The white-space rune that [l] starts with, respectively ends in. *)
Definition space_prefix (l : list ascii) : option (list ascii) :=
  List.find (λ p, bool_decide (p `prefix_of` l)) white_space.
Definition space_suffix (l : list ascii) : option (list ascii) :=
  List.find (λ p, bool_decide (p `suffix_of` l)) white_space.

(** [TrimLeftFunc(s, unicode.IsSpace)]: drop white-space runes from the
    front until the first rune is none.  Every round drops at least a
    byte, so [length l] rounds are enough. *)
Fixpoint trim_left (rounds : nat) (l : list ascii) : list ascii :=
  match rounds with
  | O => l
  | S rounds =>
      match space_prefix l with
      | Some p => trim_left rounds (drop (length p) l)
      | None => l
      end
  end.

(** [TrimRightFunc(s, unicode.IsSpace)], from the end. *)
Fixpoint trim_right (rounds : nat) (l : list ascii) : list ascii :=
  match rounds with
  | O => l
  | S rounds =>
      match space_suffix l with
      | Some p => trim_right rounds (take (length l - length p) l)
      | None => l
      end
  end.

Definition TrimLeftSpace (l : list ascii) : list ascii := trim_left (length l) l.
Definition TrimRightSpace (l : list ascii) : list ascii := trim_right (length l) l.

(** [strings.TrimSpace]: the string without its leading and trailing
    white space, as defined by Unicode. *)
Definition TrimSpace (s : string) : string :=
  of_bytes (TrimRightSpace (TrimLeftSpace (bytes s))).

(** [strings.ToLower] on the bytes below 0x80, where it maps 'A'..'Z'
    to 'a'..'z'.  Bytes from 0x80 on are kept.  (On a string that has
    such bytes Go decodes the runes, maps them with [unicode.ToLower] and
    encodes them again, an invalid byte becoming U+FFFD.  The bytes
    below 0x80 are runes of their own and are mapped as here, and no
    other rune is mapped to ['.'], ['x'], ['e'] or ['s']: the test for
    the suffix [".xes"], the only use the program makes of the result,
    comes out the same.) *)
Definition lower_byte (c : ascii) : ascii :=
  let n := N_of_ascii c in
  if ((65 <=? n) && (n <=? 90))%N then ascii_of_N (n + 32) else c.

Fixpoint ToLower (s : string) : string :=
  match s with
  | EmptyString => EmptyString
  | String c s => String (lower_byte c) (ToLower s)
  end.

(** [strings.HasSuffix]:
    [len(s) >= len(suffix) && s[len(s)-len(suffix):] == suffix]. *)
Definition HasSuffix (s suffix : string) : bool :=
  (String.length suffix <=? String.length s)%nat &&
  String.eqb
    (String.substring (String.length s - String.length suffix)
                      (String.length suffix) s)
    suffix.

End strings.

Module filepath.

Definition IsPathSeparator (c : option ascii) : bool :=
  bool_decide (c = Some "/"%char).
Definition is_dot (c : option ascii) : bool :=
  bool_decide (c = Some "."%char).

(** [for out.w > dotdot && !IsPathSeparator(out.index(out.w)) { out.w-- }] *)
Fixpoint backtrack (out : list ascii) (dotdot w : nat) : nat :=
  match w with
  | O => O
  | S w' =>
      if (dotdot <? w)%nat && negb (IsPathSeparator (out !! w))
      then backtrack out dotdot w'
      else w
  end.

(** The bytes of the path element that [path] starts with. *)
Fixpoint element (path : list ascii) : list ascii :=
  match path with
  | [] => []
  | c :: path => if IsPathSeparator (Some c) then [] else c :: element path
  end.

(** The loop [for r < n] of [Clean]: [r] is the index of the next byte
    of [path] to process, [out] the bytes written so far and [dotdot]
    the index in [out] where [..] must stop.  Every round moves [r]
    forward, so more than [length path] rounds are never needed. *)
Fixpoint Clean_loop (rounds : nat) (path : list ascii) (rooted : bool)
    (r : nat) (out : list ascii) (dotdot : nat) : list ascii :=
  match rounds with
  | O => out
  | S rounds =>
    let n := length path in
    if negb (r <? n)%nat then out
    else if IsPathSeparator (path !! r) then
      (* empty path element *)
      Clean_loop rounds path rooted (r + 1) out dotdot
    else if is_dot (path !! r)
            && ((r + 1 =? n)%nat || IsPathSeparator (path !! (r + 1)%nat)) then
      (* . element *)
      Clean_loop rounds path rooted (r + 1) out dotdot
    else if is_dot (path !! r) && is_dot (path !! (r + 1)%nat)
            && ((r + 2 =? n)%nat || IsPathSeparator (path !! (r + 2)%nat)) then
      (* .. element: remove to last separator *)
      if (dotdot <? length out)%nat then
        Clean_loop rounds path rooted (r + 2)
          (take (backtrack out dotdot (length out - 1)) out) dotdot
      else if negb rooted then
        let out := if (0 <? length out)%nat then out ++ ["/"%char] else out in
        let out := out ++ ["."%char; "."%char] in
        Clean_loop rounds path rooted (r + 2) out (length out)
      else Clean_loop rounds path rooted (r + 2) out dotdot
    else
      (* real path element: add slash if needed, copy element *)
      let out :=
        if rooted && negb (length out =? 1)%nat
           || negb rooted && negb (length out =? 0)%nat
        then out ++ ["/"%char] else out in
      let elem := element (drop r path) in
      Clean_loop rounds path rooted (r + length elem) (out ++ elem) dotdot
  end.

(** [filepath.Clean] where the separator is [/] and paths have no
    volume name (Unix): the shortest path name equivalent to [path] by
    purely lexical processing. *)
Definition Clean (path : string) : string :=
  let path := strings.bytes path in
  match path with
  | [] => "."
  | c :: _ =>
      let rooted := IsPathSeparator (Some c) in
      let out :=
        if rooted
        then Clean_loop (length path) path rooted 1 ["/"%char] 1
        else Clean_loop (length path) path rooted 0 [] 0 in
      match out with
      | [] => "."
      | _ => strings.of_bytes out
      end
  end.

End filepath.

(** ** The document model *)

Module StringAttribute.
(** A string attribute of an event or of a trace. *)
Record t := mk { Key : string; Value : string }.
End StringAttribute.

Module DateAttribute.
(** A date attribute of an event; the value is kept as text. *)
Record t := mk { Key : string; Value : string }.
End DateAttribute.

Module Event.
Record t := mk {
  StringAttributes : list StringAttribute.t;
  DateAttributes : list DateAttribute.t
}.
End Event.

Module Trace.
Record t := mk {
  Events : list Event.t;
  StringAttributes : list StringAttribute.t
}.
End Trace.

Module XES.
(** [XMLName] is the [xml.Name] of the root: its name space and its
    local name.  The conversion never reads it. *)
Record t := mk {
  XMLName : string * string;
  Traces : list Trace.t
}.
End XES.

(** The dynamic type of the [interface{}] argument of [setAttributeValue];
    its callers pass one of the two attribute types. *)
Inductive any :=
| OfStringAttribute (v : StringAttribute.t)
| OfDateAttribute (v : DateAttribute.t).

(** ** Outcomes, errors and effects *)

(** A Go function returns, or it panics. *)
Inductive outcome (A : Type) :=
| Returned (a : A)
| Panicked.
Arguments Returned {A} a.
Arguments Panicked {A}.

Global Instance outcome_ret : MRet outcome := λ A a, Returned a.
Global Instance outcome_bind : MBind outcome := λ A B f x,
  match x with
  | Returned a => f a
  | Panicked => Panicked
  end.

(** [for _, x := range l { s = body(s, x) }] on a state [s]. *)
Fixpoint range_over {A S} (l : list A) (body : S → A → outcome S) (s : S)
  : outcome S :=
  match l with
  | [] => Returned s
  | x :: l => s ← body s x; range_over l body s
  end.

(** The errors of the conversion; [None] is Go's [nil]. *)
Inductive error :=
| InvalidExtension (inputPath : string)
| FileOpenError (err : string)
| ParseError (err : string)
| FileCreateError (err : string)
| WriteError (what : string) (err : string).

(** The text of an error, as [fmt.Errorf] builds it. *)
Definition Error (e : error) : string :=
  match e with
  | InvalidExtension inputPath => "input file must be an XES file: " +:+ inputPath
  | FileOpenError err => "failed to open XES file: " +:+ err
  | ParseError err => "failed to decode XES file: " +:+ err
  | FileCreateError err => "failed to create CSV file: " +:+ err
  | WriteError what err => "failed to write " +:+ what +:+ ": " +:+ err
  end.

(** What the conversion does to the file system, in the order it does it.
    A write is listed when it is attempted. *)
Inductive Effect :=
| EOpen (name : string)
| EClose (name : string)
| ECreate (name : string)
| EWriteString (name : string) (s : string)
| ECsvWrite (name : string) (record : list string)
| EFlush (name : string).

(** Whether an effect creates or changes a file. *)
Definition modifies (e : Effect) : bool :=
  match e with
  | EOpen _ | EClose _ => false
  | ECreate _ | EWriteString _ _ | ECsvWrite _ _ | EFlush _ => true
  end.

(** The records handed to the CSV writer, in order. *)
Definition csv_records (trace : list Effect) : list (list string) :=
  omap (λ e, match e with ECsvWrite _ record => Some record | _ => None end) trace.

(** The order of a [range] over a map is not specified, and the Go
    runtime starts every such loop at a place of its own choice: a
    [RangeOrder] is the order of one loop, some enumeration of the keys. *)
Record RangeOrder := {
  range : gset string → list string;
  range_perm : ∀ m, range m ≡ₚ elements m
}.

(** The surroundings of a run: the platform's [filepath.Clean], the file
    system as [os.Open] and [os.Create] find it, [encoding/xml] on the
    bytes of the opened file, the error (if any) of the next write given
    what was done so far, and the order of the two loops over the key
    map. *)
Record Env := {
  filepath_Clean : string → string;
  os_Open : string → string + string;
  xml_Decode : string → XES.t + string;
  os_Create : string → option string;
  write_err : list Effect → option string;
  range_header : RangeOrder;
  range_rows : RangeOrder
}.

(** Effectful code threads the list of the effects so far. *)
Definition M (A : Type) : Type := list Effect → outcome A * list Effect.

Global Instance M_ret : MRet M := λ A a tr, (Returned a, tr).
Global Instance M_bind : MBind M := λ A B f m tr,
  match m tr with
  | (Returned a, tr') => f a tr'
  | (Panicked, tr') => (Panicked, tr')
  end.

Definition lift {A} (x : outcome A) : M A := λ tr, (x, tr).

(** An effect that cannot fail. *)
Definition perform (e : Effect) : M () := λ tr, (Returned (), tr ++ [e]).

(** A write to the output file: its error, if any. *)
Definition write (env : Env) (e : Effect) : M (option string) :=
  λ tr, (Returned (write_err env tr), tr ++ [e]).

(** [defer]: the deferred call runs when the body returns or panics. *)
Definition defer {A} (e : Effect) (body : M A) : M A :=
  λ tr, let '(r, tr') := body tr in (r, tr' ++ [e]).

(** A loop whose body may [return err]: it stops at the first error. *)
Fixpoint for_each {A} (l : list A) (body : A → M (option error))
  : M (option error) :=
  match l with
  | [] => mret None
  | x :: l =>
      err ← body x;
      match err with
      | Some e => mret (Some e)
      | None => for_each l body
      end
  end.

(** ** The program *)

(** [isValidXESFile] checks if the given file path has a .xes extension. *)
Definition isValidXESFile (filePath : string) : bool :=
  strings.HasSuffix (strings.ToLower filePath) ".xes".

(** [collectAttributeKeys] gathers all unique attribute keys from the XES
    structure. *)
Definition collectAttributeKeys (xes : XES.t) : gset string :=
  foldl (λ keyMap trace,
    let keyMap :=
      foldl (λ keyMap attr,
        if String.eqb (StringAttribute.Key attr) "concept:name"
        then {["case:concept:name"]} ∪ keyMap
        else {[StringAttribute.Key attr]} ∪ keyMap)
        keyMap (Trace.StringAttributes trace) in
    foldl (λ keyMap event,
      let keyMap :=
        foldl (λ keyMap attr, {[StringAttribute.Key attr]} ∪ keyMap)
          keyMap (Event.StringAttributes event) in
      foldl (λ keyMap attr, {[DateAttribute.Key attr]} ∪ keyMap)
        keyMap (Event.DateAttributes event))
      keyMap (Trace.Events trace))
    (∅ : gset string) (XES.Traces xes).

(** [collectHeader] creates the CSV header from the attribute keys, in
    the order [ρ] of its loop over the map. *)
Definition collectHeader (ρ : RangeOrder) (keyMap : gset string) : list string :=
  foldl (λ keys key, keys ++ [strings.TrimSpace key]) [] (range ρ keyMap).

(** [findIndex] finds the index of a key in the keys slice; [from] is the
    index of the first element of [keys]. *)
Fixpoint findIndex_from (from : Z) (keys : list string) (key : string) : Z :=
  match keys with
  | [] => -1
  | k :: keys => if String.eqb k key then from else findIndex_from (from + 1) keys key
  end.

Definition findIndex (keys : list string) (key : string) : Z :=
  findIndex_from 0 keys key.

(** [record[index] = v]: Go panics when the index is out of range. *)
Definition store (record : list string) (index : Z) (v : string)
  : outcome (list string) :=
  if bool_decide (0 ≤ index < Z.of_nat (length record))
  then Returned (<[Z.to_nat index := v]> record)
  else Panicked.

(** [setAttributeValue] sets the value of an attribute in the CSV record. *)
Definition setAttributeValue (record keys : list string) (attr : any)
  : outcome (list string) :=
  match attr with
  | OfStringAttribute v =>
      let index := findIndex keys (StringAttribute.Key v) in
      if negb (index =? -1)
      then store record index (strings.TrimSpace (StringAttribute.Value v))
      else Returned record
  | OfDateAttribute v =>
      let index := findIndex keys (DateAttribute.Key v) in
      if negb (index =? -1)
      then store record index (strings.TrimSpace (DateAttribute.Value v))
      else Returned record
  end.

(** The body of the loop over the events, up to [writer.Write]: the
    record of one event of a trace. *)
Definition event_record (keys : list string) (trace : Trace.t) (event : Event.t)
  : outcome (list string) :=
  let record := replicate (length keys) "" in
  record ← range_over (Event.StringAttributes event)
             (λ record attr, setAttributeValue record keys (OfStringAttribute attr))
             record;
  record ← range_over (Event.DateAttributes event)
             (λ record attr, setAttributeValue record keys (OfDateAttribute attr))
             record;
  range_over (Trace.StringAttributes trace)
    (λ record attr,
       let attr :=
         if String.eqb (StringAttribute.Key attr) "concept:name"
         then StringAttribute.mk "case:concept:name" (StringAttribute.Value attr)
         else attr in
       setAttributeValue record keys (OfStringAttribute attr))
    record.

(** [writeXESToCSV] writes the content of the XES file to the CSV file;
    [writer] is the CSV writer on the file of that name. *)
Definition writeXESToCSV (env : Env) (writer : string) (xes : XES.t)
    (keyMap : gset string) : M (option error) :=
  let keys := collectHeader (range_rows env) keyMap in
  for_each (XES.Traces xes) (λ trace,
    for_each (Trace.Events trace) (λ event,
      record ← lift (event_record keys trace event);
      err ← write env (ECsvWrite writer record);
      match err with
      | Some err => mret (Some (WriteError "CSV record" err))
      | None => mret None
      end)).

(** The UTF-8 byte order mark, ["\xEF\xBB\xBF"]. *)
Definition BOM : string := strings.of_bytes (strings.utf8 [0xEF; 0xBB; 0xBF]%N).

(** [ConvertXESToCSV] reads an XES file and writes its contents to a CSV
    file. *)
Definition ConvertXESToCSV (env : Env) (XESFilePath CSVFilePath : string)
  : M (option error) :=
  let inputPath := filepath_Clean env XESFilePath in
  if negb (isValidXESFile inputPath)
  then mret (Some (InvalidExtension inputPath))
  else
    _ ← perform (EOpen inputPath);
    match os_Open env inputPath with
    | inr err => mret (Some (FileOpenError err))
    | inl xesFile =>
      defer (EClose inputPath) (
        match xml_Decode env xesFile with
        | inr err => mret (Some (ParseError err))
        | inl xes =>
          let keyMap := collectAttributeKeys xes in
          let csvFilePath := filepath_Clean env CSVFilePath in
          _ ← perform (ECreate csvFilePath);
          match os_Create env csvFilePath with
          | Some err => mret (Some (FileCreateError err))
          | None =>
            defer (EClose csvFilePath) (
              err ← write env (EWriteString csvFilePath BOM);
              match err with
              | Some err => mret (Some (WriteError "UTF-8 BOM" err))
              | None =>
                defer (EFlush csvFilePath) (
                  err ← write env
                          (ECsvWrite csvFilePath
                             (collectHeader (range_header env) keyMap));
                  match err with
                  | Some err => mret (Some (WriteError "CSV header" err))
                  | None => writeXESToCSV env csvFilePath xes keyMap
                  end)
              end)
          end
        end)
    end.

(** ** What the program is to compute *)

(** The renaming of the key of a trace-level string attribute. *)
Definition rename (key : string) : string :=
  if decide (key = "concept:name") then "case:concept:name" else key.

(** The keys of a log: those of the string attributes of its traces,
    renamed, and those of the string and date attributes of its events. *)
Definition event_keys (event : Event.t) : list string :=
  (StringAttribute.Key <$> Event.StringAttributes event)
  ++ (DateAttribute.Key <$> Event.DateAttributes event).

Definition trace_keys (trace : Trace.t) : list string :=
  (rename ∘ StringAttribute.Key <$> Trace.StringAttributes trace)
  ++ (Trace.Events trace ≫= event_keys).

Definition log_keys (xes : XES.t) : list string :=
  XES.Traces xes ≫= trace_keys.

(** The index of the first column of that name. *)
Fixpoint position (keys : list string) (key : string) : option nat :=
  match keys with
  | [] => None
  | k :: keys => if decide (k = key) then Some O else S <$> position keys key
  end.

(** One write of a value under a key: nothing when no column has the name. *)
Definition put (keys : list string) (record : list string) (kv : string * string)
  : list string :=
  match position keys kv.1 with
  | Some i => <[i := strings.TrimSpace kv.2]> record
  | None => record
  end.

(** The writes for one event, as key and value, in the order in which
    they are made: the string attributes of the event, its date
    attributes, then the string attributes of its trace, renamed. *)
Definition event_writes (trace : Trace.t) (event : Event.t) : list (string * string) :=
  ((λ a, (StringAttribute.Key a, StringAttribute.Value a))
     <$> Event.StringAttributes event)
  ++ ((λ a, (DateAttribute.Key a, DateAttribute.Value a))
        <$> Event.DateAttributes event)
  ++ ((λ a, (rename (StringAttribute.Key a), StringAttribute.Value a))
        <$> Trace.StringAttributes trace).

(** The row of one event and the rows of a log, in document order. *)
Definition row (keys : list string) (trace : Trace.t) (event : Event.t) : list string :=
  foldl (put keys) (replicate (length keys) "") (event_writes trace event).

Definition rows (keys : list string) (xes : XES.t) : list (list string) :=
  trace ← XES.Traces xes; row keys trace <$> Trace.Events trace.

Definition total_events (xes : XES.t) : nat :=
  sum_list (length ∘ Trace.Events <$> XES.Traces xes).

(** The value that the last of the writes [ws] to column [i] leaves there. *)
Definition last_write (keys : list string) (i : nat) (ws : list (string * string))
  : option string :=
  foldl (λ acc kv,
           if decide (position keys kv.1 = Some i)
           then Some (strings.TrimSpace kv.2) else acc)
        None ws.

(** A path ends in [.xes], whatever the case of its letters. *)
Definition ends_in_xes (path : string) : bool :=
  match reverse (strings.bytes path) with
  | c :: b :: a :: dot :: _ =>
      bool_decide (dot = "."%char)
      && bool_decide (a = "x"%char ∨ a = "X"%char)
      && bool_decide (b = "e"%char ∨ b = "E"%char)
      && bool_decide (c = "s"%char ∨ c = "S"%char)
  | _ => false
  end.

(** The key and the value of an attribute of either type. *)
Definition any_key (attr : any) : string :=
  match attr with
  | OfStringAttribute v => StringAttribute.Key v
  | OfDateAttribute v => DateAttribute.Key v
  end.

Definition any_value (attr : any) : string :=
  match attr with
  | OfStringAttribute v => StringAttribute.Value v
  | OfDateAttribute v => DateAttribute.Value v
  end.

(** Handing the records [rs] to the CSV writer one after the other, up to
    the first write that fails. *)
Fixpoint write_all (env : Env) (writer : string) (rs : list (list string))
    (tr : list Effect) : option error * list Effect :=
  match rs with
  | [] => (None, tr)
  | r :: rs =>
      match write_err env tr with
      | Some err => (Some (WriteError "CSV record" err), tr ++ [ECsvWrite writer r])
      | None => write_all env writer rs (tr ++ [ECsvWrite writer r])
      end
  end.

(** The cell of [record] under the first column of [header] that is
    named [column]. *)
Definition under (header record : list string) (column : string) : option string :=
  i ← position header column; record !! i.

(** ** Some runs *)

(** Two orders of a loop over a map: the enumeration [elements], and that
    enumeration started [n] places further on. *)
Definition range_elements : RangeOrder :=
  {| range := elements; range_perm := λ m, reflexivity (elements m) |}.

Definition range_rotated (n : nat) : RangeOrder :=
  {| range := λ m, rotate n (elements m);
     range_perm := λ m,
       ltac:(unfold rotate; rewrite Permutation_app_comm, take_drop;
             reflexivity) |}.

(** One trace named [case1] with two events. *)
Definition log_scenario : XES.t :=
  XES.mk ("", "log")
    [ Trace.mk
        [ Event.mk [StringAttribute.mk "activity" "start"] [];
          Event.mk [] [DateAttribute.mk "timestamp" "2024-01-01T00:00:00"] ]
        [ StringAttribute.mk "concept:name" "case1" ] ].

(** One event with two keys that differ in a leading blank. *)
Definition event_twin_keys : Event.t :=
  Event.mk [StringAttribute.mk " a" "x"; StringAttribute.mk "a" "y"] [].

Definition trace_twin_keys : Trace.t := Trace.mk [event_twin_keys] [].

Definition log_twin_keys : XES.t := XES.mk ("", "log") [trace_twin_keys].

(** A Unix system on which every file opens with the bytes [content],
    every file can be created and every write succeeds. *)
Definition env_unix (content : string) (decode : string → XES.t + string)
    (ρ1 ρ2 : RangeOrder) : Env :=
  {| filepath_Clean := filepath.Clean;
     os_Open := λ _, inl content;
     xml_Decode := decode;
     os_Create := λ _, None;
     write_err := λ _, None;
     range_header := ρ1;
     range_rows := ρ2 |}.

(** A decoder that knows one document. *)
Definition decode_as (xes : XES.t) : string → XES.t + string := λ _, inl xes.

Definition decode_fails : string → XES.t + string := λ _, inr "unexpected EOF".

(** The file that an effect is about. *)
Definition effect_name (e : Effect) : string :=
  match e with
  | EOpen name | EClose name | ECreate name | EFlush name => name
  | EWriteString name _ | ECsvWrite name _ => name
  end.

(** The value of the last of the writes [ws] that is made under the key
    [column]. *)
Definition last_value (column : string) (ws : list (string * string))
  : option string :=
  snd <$> last (filter (λ kv, kv.1 = column) ws).

(** Whether a trace has an event. *)
Definition has_events (trace : Trace.t) : bool :=
  match Trace.Events trace with
  | [] => false
  | _ :: _ => true
  end.

(** * Properties *)

(** ** The library functions *)

Lemma of_bytes_bytes s : strings.of_bytes (strings.bytes s) = s.
Proof. apply String.string_of_list_ascii_of_string. Qed.

Lemma bytes_of_bytes l : strings.bytes (strings.of_bytes l) = l.
Proof. apply String.list_ascii_of_string_of_list_ascii. Qed.

Lemma white_space_nonempty p : In p strings.white_space → (0 < length p)%nat.
Proof.
  unfold strings.white_space. cbn [fmap list_fmap In].
  intros H. repeat (destruct H as [<-|H]; [cbn; lia|]). destruct H.
Qed.

Lemma space_prefix_Some l p :
  strings.space_prefix l = Some p → p `prefix_of` l ∧ (0 < length p)%nat.
Proof.
  intros [Hin Hp]%find_some. cbv beta in Hp. split.
  - by apply bool_decide_eq_true in Hp.
  - by apply white_space_nonempty.
Qed.

Lemma space_suffix_Some l p :
  strings.space_suffix l = Some p → p `suffix_of` l ∧ (0 < length p)%nat.
Proof.
  intros [Hin Hp]%find_some. cbv beta in Hp. split.
  - by apply bool_decide_eq_true in Hp.
  - by apply white_space_nonempty.
Qed.

Lemma space_prefix_nil : strings.space_prefix [] = None.
Proof. reflexivity. Qed.

Lemma space_suffix_nil : strings.space_suffix [] = None.
Proof. reflexivity. Qed.

(** A list that starts with no white-space rune has no prefix that does. *)
Lemma space_prefix_mono t u :
  t `prefix_of` u → strings.space_prefix u = None → strings.space_prefix t = None.
Proof.
  intros Htu Hu. destruct (strings.space_prefix t) as [p|] eqn:Ht; [|done].
  apply find_some in Ht as [Hin Hp]. cbv beta in Hp.
  apply bool_decide_eq_true in Hp.
  eapply find_none in Hu; [|exact Hin]. cbv beta in Hu.
  apply bool_decide_eq_false in Hu. destruct Hu. by etrans.
Qed.



Lemma trim_left_clean n l :
  (length l ≤ n)%nat → strings.space_prefix (strings.trim_left n l) = None.
Proof.
  revert l. induction n as [|n IH]; intros l Hn.
  - destruct l; [apply space_prefix_nil | cbn in Hn; lia].
  - cbn [strings.trim_left].
    destruct (strings.space_prefix l) as [p|] eqn:Hl; [|done].
    apply space_prefix_Some in Hl as [_ Hp].
    apply IH. rewrite length_drop. lia.
Qed.

Lemma trim_right_clean n l :
  (length l ≤ n)%nat → strings.space_suffix (strings.trim_right n l) = None.
Proof.
  revert l. induction n as [|n IH]; intros l Hn.
  - destruct l; [apply space_suffix_nil | cbn in Hn; lia].
  - cbn [strings.trim_right].
    destruct (strings.space_suffix l) as [p|] eqn:Hl; [|done].
    apply space_suffix_Some in Hl as [_ Hp].
    apply IH. rewrite length_take. lia.
Qed.

Lemma trim_right_prefix n l : strings.trim_right n l `prefix_of` l.
Proof.
  revert l. induction n as [|n IH]; intros l; cbn [strings.trim_right]; [done|].
  destruct (strings.space_suffix l) as [p|]; [|done].
  etrans; [apply IH|]. apply prefix_take.
Qed.

Lemma trim_left_suffix n l : strings.trim_left n l `suffix_of` l.
Proof.
  revert l. induction n as [|n IH]; intros l; cbn [strings.trim_left]; [done|].
  destruct (strings.space_prefix l) as [p|]; [|done].
  etrans; [apply IH|]. apply suffix_drop.
Qed.


(** The result of [TrimSpace] neither starts with nor ends in white space. *)
Lemma TrimSpace_trimmed s :
  strings.space_prefix (strings.bytes (strings.TrimSpace s)) = None
  ∧ strings.space_suffix (strings.bytes (strings.TrimSpace s)) = None.
Proof.
  unfold strings.TrimSpace. rewrite bytes_of_bytes. split.
  - eapply space_prefix_mono; [apply trim_right_prefix|].
    by apply trim_left_clean.
  - by apply trim_right_clean.
Qed.

(** The result of [TrimSpace] is a segment of its argument. *)
Lemma TrimSpace_segment s :
  ∃ l r, strings.bytes s = l ++ strings.bytes (strings.TrimSpace s) ++ r.
Proof.
  unfold strings.TrimSpace. rewrite bytes_of_bytes.
  destruct (trim_left_suffix (length (strings.bytes s)) (strings.bytes s)) as [l Hl].
  destruct (trim_right_prefix (length (strings.TrimLeftSpace (strings.bytes s)))
              (strings.TrimLeftSpace (strings.bytes s))) as [r Hr].
  exists l, r. rewrite Hl at 1. f_equal. exact Hr.
Qed.

(** Blanks, a tab, a line feed and a no-break space (U+00A0) are
    trimmed; white space inside the string stays. *)
Lemma TrimSpace_examples :
  strings.TrimSpace "  foo  " = "foo"
  ∧ strings.TrimSpace " a" = "a"
  ∧ strings.TrimSpace "concept:name" = "concept:name"
  ∧ strings.TrimSpace
      (strings.of_bytes
         (strings.utf8 [0x09; 0x61; 0x20; 0x62; 0xC2; 0xA0; 0x0A; 0x20]%N))
    = "a b"
  ∧ strings.TrimSpace "   " = "".
Proof. by vm_compute. Qed.

(** [Clean] on some paths. *)
Lemma Clean_examples :
  filepath.Clean
    <$> ["foo.xes/"; "a/../b.xes"; "/../a"; "../../x"; "a//b/./c/.."; ""; "/";
         "a/b/../../.."; "./"; "x/..xes/"]
  = ["foo.xes"; "b.xes"; "/a"; "../../x"; "a/b"; "."; "/"; ".."; "."; "x/..xes"].
Proof. by vm_compute. Qed.

Lemma bytes_length s : length (strings.bytes s) = String.length s.
Proof. induction s as [|c s IH]; cbn; [done|]. by rewrite <-IH. Qed.

Lemma bytes_inj s t : strings.bytes s = strings.bytes t → s = t.
Proof. intros H. by rewrite <-(of_bytes_bytes s), H, of_bytes_bytes. Qed.

Lemma bytes_substring n m s :
  strings.bytes (String.substring n m s) = take m (drop n (strings.bytes s)).
Proof.
  revert n m. induction s as [|c s IH]; intros n m.
  - destruct n, m; reflexivity.
  - destruct n as [|n].
    + destruct m as [|m]; [done|]. cbn. f_equal. apply (IH 0%nat m).
    + cbn. apply IH.
Qed.

Lemma bytes_ToLower s :
  strings.bytes (strings.ToLower s) = strings.lower_byte <$> strings.bytes s.
Proof.
  unfold strings.bytes. induction s as [|c s IH]; [done|].
  cbn [strings.ToLower String.list_ascii_of_string]. rewrite IH. by rewrite fmap_cons.
Qed.

(** [HasSuffix] tests that [s] ends with [suffix]. *)
Lemma HasSuffix_suffix s suffix :
  strings.HasSuffix s suffix = true
  ↔ strings.bytes suffix `suffix_of` strings.bytes s.
Proof.
  unfold strings.HasSuffix. rewrite andb_true_iff, Nat.leb_le, String.eqb_eq.
  rewrite <-!bytes_length. split.
  - intros [Hlen Heq]. apply (f_equal strings.bytes) in Heq.
    rewrite bytes_substring in Heq.
    rewrite take_ge in Heq by (rewrite length_drop; lia).
    rewrite <-Heq. apply suffix_drop.
  - intros [k Hk]. split.
    + rewrite Hk, length_app. lia.
    + apply bytes_inj. rewrite bytes_substring.
      rewrite Hk, length_app.
      replace (length k + length (strings.bytes suffix)
               - length (strings.bytes suffix))%nat with (length k) by lia.
      rewrite drop_app_length. apply take_ge. lia.
Qed.

Lemma lower_byte_dot c :
  bool_decide (strings.lower_byte c = "."%char) = bool_decide (c = "."%char).
Proof. by destruct c as [[] [] [] [] [] [] [] []]. Qed.

Lemma lower_byte_x c :
  bool_decide (strings.lower_byte c = "x"%char)
  = bool_decide (c = "x"%char ∨ c = "X"%char).
Proof. by destruct c as [[] [] [] [] [] [] [] []]. Qed.

Lemma lower_byte_e c :
  bool_decide (strings.lower_byte c = "e"%char)
  = bool_decide (c = "e"%char ∨ c = "E"%char).
Proof. by destruct c as [[] [] [] [] [] [] [] []]. Qed.

Lemma lower_byte_s c :
  bool_decide (strings.lower_byte c = "s"%char)
  = bool_decide (c = "s"%char ∨ c = "S"%char).
Proof. by destruct c as [[] [] [] [] [] [] [] []]. Qed.

Lemma prefix_cons_decide (x y : ascii) l1 l2 :
  x :: l1 `prefix_of` y :: l2 ↔ bool_decide (x = y) = true ∧ l1 `prefix_of` l2.
Proof.
  rewrite bool_decide_eq_true. split.
  - intros H. split; [by eapply prefix_cons_inv_1|by eapply prefix_cons_inv_2].
  - intros [-> H]. by apply prefix_cons.
Qed.

(** The test of the program is the test for the extension [.xes] in any
    letter case. *)
Lemma isValidXESFile_ends_in_xes path : isValidXESFile path = ends_in_xes path.
Proof.
  apply eq_true_iff_eq. unfold isValidXESFile, ends_in_xes.
  rewrite HasSuffix_suffix, suffix_prefix_reverse, bytes_ToLower, <-fmap_reverse.
  change (reverse (strings.bytes ".xes"))
    with ["s"%char; "e"%char; "x"%char; "."%char].
  destruct (reverse (strings.bytes path)) as [|c [|b [|a [|d l]]]]; cbn [fmap list_fmap].
  1-4: split; [|done]; intros H;
       repeat (apply prefix_cons_decide in H as [_ H]); by apply prefix_nil_not in H.
  rewrite !prefix_cons_decide, !andb_true_iff.
  rewrite <-lower_byte_dot, <-lower_byte_x, <-lower_byte_e, <-lower_byte_s.
  rewrite !(bool_decide_eq_true (_ = _)).
  pose proof (prefix_nil (strings.lower_byte <$> l)). intuition.
Qed.

(** ** Looking up a column *)

Lemma findIndex_from_position from keys key :
  findIndex_from from keys key
  = match position keys key with
    | Some i => from + Z.of_nat i
    | None => -1
    end.
Proof.
  revert from. induction keys as [|k keys IH]; intros from; cbn; [done|].
  destruct (String.eqb_spec k key) as [->|Hne].
  - rewrite decide_True by done. lia.
  - rewrite decide_False by done. rewrite IH.
    destruct (position keys key); cbn; lia.
Qed.

Lemma findIndex_position keys key :
  findIndex keys key = from_option Z.of_nat (-1) (position keys key).
Proof.
  unfold findIndex. rewrite findIndex_from_position.
  destruct (position keys key); cbn; lia.
Qed.

Lemma position_Some keys key i :
  position keys key = Some i →
  keys !! i = Some key ∧ ∀ j, (j < i)%nat → keys !! j ≠ Some key.
Proof.
  revert i. induction keys as [|k keys IH]; intros i; cbn; [done|].
  destruct (decide (k = key)) as [->|Hne].
  - intros [= <-]. split; [done|]. intros j Hj. lia.
  - destruct (position keys key) as [i'|] eqn:Hp; [|done].
    intros [= <-]. destruct (IH i' eq_refl) as [Hi Hj]. split; [done|].
    intros [|j] Hlt; cbn; [congruence|]. apply Hj. lia.
Qed.

Lemma position_lt keys key i : position keys key = Some i → (i < length keys)%nat.
Proof. intros [H _]%position_Some. by eapply lookup_lt_Some. Qed.

Lemma position_None keys key : position keys key = None ↔ key ∉ keys.
Proof.
  induction keys as [|k keys IH]; cbn.
  - split; [|done]. intros _ H. by apply elem_of_nil in H.
  - rewrite not_elem_of_cons. destruct (decide (k = key)) as [->|Hne].
    + split; [done|]. by intros [? _].
    + destruct (position keys key); cbn.
      * split; [done|]. intros [_ H]. by apply IH in H.
      * split; [|done]. intros _. split; [done|]. by apply IH.
Qed.

Lemma position_is_Some keys key : key ∈ keys → is_Some (position keys key).
Proof.
  intros H. destruct (position keys key) eqn:Hp; [by eexists|].
  by apply position_None in Hp.
Qed.

(** In a header without repetition a column is found at its own place. *)
Lemma position_NoDup keys key i :
  NoDup keys → keys !! i = Some key → position keys key = Some i.
Proof.
  intros Hnd Hi.
  destruct (position_is_Some keys key) as [j Hj]; [by eapply list_elem_of_lookup_2|].
  rewrite Hj. f_equal. apply position_Some in Hj as [Hj _].
  eapply NoDup_lookup; eauto.
Qed.

(** ** Writing a cell *)

Lemma length_put keys record kv : length (put keys record kv) = length record.
Proof. unfold put. destruct (position keys kv.1); [apply length_insert|done]. Qed.

Lemma length_foldl_put keys record ws :
  length (foldl (put keys) record ws) = length record.
Proof.
  revert record. induction ws as [|w ws IH]; intros record; cbn; [done|].
  by rewrite IH, length_put.
Qed.

(** With a record as long as the header, [setAttributeValue] returns, and
    what it does is one [put]. *)
Lemma setAttributeValue_put record keys attr :
  length record = length keys →
  setAttributeValue record keys attr
  = Returned (put keys record (any_key attr, any_value attr)).
Proof.
  intros Hlen.
  assert (∀ key v,
    (let index := findIndex keys key in
     if negb (index =? -1) then store record index (strings.TrimSpace v)
     else Returned record) = Returned (put keys record (key, v))) as Hgen.
  { intros key v. cbv zeta. rewrite findIndex_position. unfold put, store. cbn [fst snd].
    destruct (position keys key) as [i|] eqn:Hp; cbn [from_option].
    - apply position_lt in Hp.
      replace (Z.of_nat i =? -1) with false by lia. cbn [negb].
      rewrite bool_decide_eq_true_2 by lia. by rewrite Nat2Z.id.
    - done. }
  destruct attr as [v|v]; apply Hgen.
Qed.

Lemma range_over_foldl {A S} (P : S → Prop) (f : S → A → S)
    (body : S → A → outcome S) (l : list A) (s : S) :
  (∀ s x, P s → body s x = Returned (f s x) ∧ P (f s x)) →
  P s →
  range_over l body s = Returned (foldl f s l) ∧ P (foldl f s l).
Proof.
  intros Hbody. revert s. induction l as [|x l IH]; intros s Hs; cbn; [done|].
  destruct (Hbody s x Hs) as [-> Hs']. cbn. by apply IH.
Qed.

(** The record of an event is its [row]: the loop never panics. *)
Lemma event_record_row keys trace event :
  event_record keys trace event = Returned (row keys trace event).
Proof.
  unfold event_record, row, event_writes. rewrite !foldl_app, !foldl_fmap.
  set (P := λ record : list string, length record = length keys).
  assert (Hput : ∀ record kv, P record → P (put keys record kv)).
  { intros record kv Hr. unfold P. by rewrite length_put. }
  edestruct (range_over_foldl P
    (λ record a, put keys record (StringAttribute.Key a, StringAttribute.Value a))
    (λ record attr, setAttributeValue record keys (OfStringAttribute attr))
    (Event.StringAttributes event) (replicate (length keys) "")) as [-> H1].
  { intros record a Hr. split; [by apply setAttributeValue_put|by apply Hput]. }
  { apply length_replicate. }
  cbn [mbind outcome_bind].
  edestruct (range_over_foldl P
    (λ record a, put keys record (DateAttribute.Key a, DateAttribute.Value a))
    (λ record attr, setAttributeValue record keys (OfDateAttribute attr))
    (Event.DateAttributes event)) as [-> H2]; [|exact H1|].
  { intros record a Hr. split; [by apply setAttributeValue_put|by apply Hput]. }
  cbn [mbind outcome_bind].
  edestruct (range_over_foldl P
    (λ record a,
       put keys record (rename (StringAttribute.Key a), StringAttribute.Value a)))
    as [-> H3]; [|exact H2|done].
  intros record a Hr. split; [|by apply Hput].
  cbv zeta. rewrite setAttributeValue_put by done. unfold rename.
  destruct (String.eqb_spec (StringAttribute.Key a) "concept:name") as [He|He].
  - by rewrite decide_True.
  - by rewrite decide_False.
Qed.

Lemma length_row keys trace event : length (row keys trace event) = length keys.
Proof. unfold row. by rewrite length_foldl_put, length_replicate. Qed.

(** ** The last write wins *)

Lemma last_write_snoc keys i ws kv :
  last_write keys i (ws ++ [kv])
  = if decide (position keys kv.1 = Some i)
    then Some (strings.TrimSpace kv.2) else last_write keys i ws.
Proof. unfold last_write. by rewrite foldl_snoc. Qed.

Lemma last_write_app keys i ws1 ws2 :
  last_write keys i (ws1 ++ ws2)
  = match last_write keys i ws2 with
    | Some v => Some v
    | None => last_write keys i ws1
    end.
Proof.
  induction ws2 as [|kv ws2 IH] using rev_ind.
  - by rewrite app_nil_r.
  - rewrite app_assoc, !last_write_snoc. by case_decide.
Qed.

Lemma last_write_Some keys i ws v :
  last_write keys i ws = Some v →
  ∃ kv, kv ∈ ws ∧ position keys kv.1 = Some i ∧ v = strings.TrimSpace kv.2.
Proof.
  induction ws as [|kv ws IH] using rev_ind; [done|].
  rewrite last_write_snoc. case_decide as Hp.
  - intros [= <-]. exists kv. split; [|done]. apply elem_of_app. right. by left.
  - intros (kv' & Hin & H)%IH. exists kv'. split; [|done].
    apply elem_of_app. by left.
Qed.

Lemma last_write_is_Some keys i ws kv :
  kv ∈ ws → position keys kv.1 = Some i → is_Some (last_write keys i ws).
Proof.
  intros Hin Hp. induction ws as [|kv' ws IH] using rev_ind.
  - by apply elem_of_nil in Hin.
  - rewrite last_write_snoc. case_decide; [by eexists|].
    apply IH. apply elem_of_app in Hin as [Hin|Hin]; [done|].
    apply list_elem_of_singleton in Hin. by subst.
Qed.

Lemma lookup_foldl_put keys record ws i :
  (i < length record)%nat →
  foldl (put keys) record ws !! i
  = match last_write keys i ws with
    | Some v => Some v
    | None => record !! i
    end.
Proof.
  intros Hi. induction ws as [|kv ws IH] using rev_ind; [done|].
  rewrite foldl_snoc, last_write_snoc. unfold put at 1.
  destruct (position keys kv.1) as [j|] eqn:Hp.
  - destruct (decide (j = i)) as [->|Hne].
    + rewrite decide_True by done.
      apply list_lookup_insert_eq. by rewrite length_foldl_put.
    + rewrite decide_False by congruence.
      by rewrite list_lookup_insert_ne.
  - by rewrite decide_False.
Qed.

(** A cell of a row holds the value of the last write to its column, and
    is empty when there is none. *)
Lemma row_lookup keys trace event i :
  (i < length keys)%nat →
  row keys trace event !! i
  = Some (default "" (last_write keys i (event_writes trace event))).
Proof.
  intros Hi. unfold row.
  rewrite lookup_foldl_put by (by rewrite length_replicate).
  destruct (last_write _ _ _); [done|]. by apply lookup_replicate_2.
Qed.

(** ** The collection of the keys *)

Lemma elem_of_foldl_insert {A} (f : A → string) (g : gset string → A → gset string)
    (l : list A) (m : gset string) (k : string) :
  (∀ m a, g m a = {[f a]} ∪ m) →
  k ∈ foldl g m l ↔ k ∈ m ∨ k ∈ f <$> l.
Proof.
  intros Hg. revert m. induction l as [|a l IH]; intros m; cbn.
  - rewrite elem_of_nil. tauto.
  - rewrite IH, Hg, elem_of_cons, elem_of_union, elem_of_singleton. tauto.
Qed.

Lemma elem_of_foldl_bind {A} (f : A → list string)
    (g : gset string → A → gset string) (l : list A) (m : gset string) (k : string) :
  (∀ m a k, k ∈ g m a ↔ k ∈ m ∨ k ∈ f a) →
  k ∈ foldl g m l ↔ k ∈ m ∨ k ∈ l ≫= f.
Proof.
  intros Hg. revert m. induction l as [|a l IH]; intros m; cbn.
  - rewrite elem_of_nil. tauto.
  - rewrite IH, Hg, elem_of_app. tauto.
Qed.

(** The key map holds the keys of the log, and nothing else. *)
Lemma elem_of_collectAttributeKeys xes k :
  k ∈ collectAttributeKeys xes ↔ k ∈ log_keys xes.
Proof.
  unfold collectAttributeKeys, log_keys.
  rewrite (elem_of_foldl_bind trace_keys).
  { split; [|by right]. intros [H|H]; [|done]. by apply elem_of_empty in H. }
  clear k. intros m trace k. unfold trace_keys.
  rewrite (elem_of_foldl_bind event_keys).
  - rewrite (elem_of_foldl_insert (rename ∘ StringAttribute.Key)).
    + rewrite elem_of_app. tauto.
    + intros m' a. unfold rename. cbn.
      destruct (String.eqb_spec (StringAttribute.Key a) "concept:name").
      * by rewrite decide_True.
      * by rewrite decide_False.
  - clear. intros m event k. unfold event_keys.
    rewrite (elem_of_foldl_insert DateAttribute.Key) by done.
    rewrite (elem_of_foldl_insert StringAttribute.Key) by done.
    rewrite elem_of_app. tauto.
Qed.

(** ** The header *)

Lemma collectHeader_fmap ρ keyMap :
  collectHeader ρ keyMap = strings.TrimSpace <$> range ρ keyMap.
Proof.
  unfold collectHeader.
  assert (∀ l acc,
    foldl (λ keys key, keys ++ [strings.TrimSpace key]) acc l
    = acc ++ (strings.TrimSpace <$> l)) as H.
  { induction l as [|k l IH]; intros acc; cbn.
    - by rewrite app_nil_r.
    - by rewrite IH, <-app_assoc. }
  apply H.
Qed.

Lemma collectHeader_perm ρ keyMap :
  collectHeader ρ keyMap ≡ₚ strings.TrimSpace <$> elements keyMap.
Proof. rewrite collectHeader_fmap. by rewrite range_perm. Qed.

Lemma length_collectHeader ρ keyMap : length (collectHeader ρ keyMap) = size keyMap.
Proof. by rewrite collectHeader_perm, length_fmap. Qed.

Lemma elem_of_range ρ (keyMap : gset string) k : k ∈ range ρ keyMap ↔ k ∈ keyMap.
Proof. by rewrite range_perm, elem_of_elements. Qed.

Lemma NoDup_range ρ (keyMap : gset string) : NoDup (range ρ keyMap).
Proof. rewrite range_perm. apply NoDup_elements. Qed.

(** The columns are the trimmed keys of the map. *)
Lemma elem_of_collectHeader ρ keyMap c :
  c ∈ collectHeader ρ keyMap ↔ ∃ k, k ∈ keyMap ∧ c = strings.TrimSpace k.
Proof.
  rewrite collectHeader_fmap, list_elem_of_fmap.
  split; intros (k & H1 & H2); exists k.
  - by rewrite <-(elem_of_range ρ).
  - by rewrite (elem_of_range ρ).
Qed.


(** When no key has surrounding white space, the header is the key set in
    the order of the loop, and no column is repeated. *)
Lemma collectHeader_clean ρ (keyMap : gset string) :
  (∀ k, k ∈ keyMap → strings.TrimSpace k = k) →
  collectHeader ρ keyMap = range ρ keyMap ∧ NoDup (collectHeader ρ keyMap).
Proof.
  intros Hclean.
  assert (collectHeader ρ keyMap = range ρ keyMap) as ->.
  { rewrite collectHeader_fmap. rewrite <-(list_fmap_id (range ρ keyMap)) at 2.
    apply list_fmap_ext. intros i k Hk. apply Hclean.
    rewrite <-(elem_of_range ρ). by eapply list_elem_of_lookup_2. }
  split; [done|apply NoDup_range].
Qed.

(** ** The emission of the rows *)

Lemma write_all_app env writer rs1 rs2 tr :
  write_all env writer (rs1 ++ rs2) tr
  = match write_all env writer rs1 tr with
    | (None, tr') => write_all env writer rs2 tr'
    | (Some e, tr') => (Some e, tr')
    end.
Proof.
  revert tr. induction rs1 as [|r rs1 IH]; intros tr; cbn; [done|].
  destruct (write_err env tr); [done|]. apply IH.
Qed.

(** The trace grows by the records written, a prefix of [rs], and by all
    of [rs] when no write fails. *)
Lemma write_all_trace env writer rs tr :
  ∃ n, (n ≤ length rs)%nat
       ∧ (write_all env writer rs tr).2 = tr ++ (ECsvWrite writer <$> take n rs)
       ∧ ((write_all env writer rs tr).1 = None → n = length rs).
Proof.
  revert tr. induction rs as [|r rs IH]; intros tr; cbn.
  - exists 0%nat. by rewrite app_nil_r.
  - destruct (write_err env tr) as [err|].
    + exists 1%nat. cbn. rewrite take_0. split; [lia|]. done.
    + destruct (IH (tr ++ [ECsvWrite writer r])) as (n & Hn & Htr & Hok).
      exists (S n). split; [lia|]. split.
      * rewrite Htr. cbn. by rewrite <-app_assoc.
      * intros H. by rewrite Hok.
Qed.

Lemma write_all_ok env writer rs tr :
  (∀ h, write_err env h = None) →
  write_all env writer rs tr = (None, tr ++ (ECsvWrite writer <$> rs)).
Proof.
  intros Hok. revert tr. induction rs as [|r rs IH]; intros tr; cbn.
  - by rewrite app_nil_r.
  - rewrite Hok, IH. by rewrite <-app_assoc.
Qed.

Lemma for_each_events env writer keys trace events tr :
  for_each events (λ event,
    record ← lift (event_record keys trace event);
    err ← write env (ECsvWrite writer record);
    match err with
    | Some err => mret (Some (WriteError "CSV record" err))
    | None => mret None
    end) tr
  = (Returned (write_all env writer (row keys trace <$> events) tr).1,
     (write_all env writer (row keys trace <$> events) tr).2).
Proof.
  revert tr. induction events as [|event events IH]; intros tr; [done|].
  cbn [for_each fmap list_fmap write_all].
  unfold mbind, M_bind, lift, write at 1. rewrite event_record_row.
  destruct (write_err env tr) as [err|]; [done|].
  unfold mret, M_ret at 1. apply IH.
Qed.

(** [writeXESToCSV] returns, and hands the rows of the log to the writer
    in document order, as far as the writes succeed. *)
Lemma writeXESToCSV_write_all env writer xes keyMap tr :
  writeXESToCSV env writer xes keyMap tr
  = (Returned
       (write_all env writer (rows (collectHeader (range_rows env) keyMap) xes) tr).1,
     (write_all env writer (rows (collectHeader (range_rows env) keyMap) xes) tr).2).
Proof.
  unfold writeXESToCSV, rows.
  set (keys := collectHeader (range_rows env) keyMap).
  generalize (XES.Traces xes) as traces. intros traces. revert tr.
  induction traces as [|trace traces IH]; intros tr; [done|].
  cbn [for_each mbind list_bind]. unfold mbind at 1, M_bind at 1.
  rewrite for_each_events, write_all_app.
  destruct (write_all env writer (row keys trace <$> Trace.Events trace) tr)
    as [[e|] tr']; [done|].
  apply IH.
Qed.

Lemma csv_records_app tr1 tr2 :
  csv_records (tr1 ++ tr2) = csv_records tr1 ++ csv_records tr2.
Proof. apply omap_app. Qed.

Lemma csv_records_ECsvWrite writer rs : csv_records (ECsvWrite writer <$> rs) = rs.
Proof. induction rs as [|r rs IH]; cbn; [done|]. by f_equal. Qed.

Lemma length_rows keys xes : length (rows keys xes) = total_events xes.
Proof.
  unfold rows, total_events. induction (XES.Traces xes) as [|trace traces IH]; [done|].
  cbn. rewrite length_app, length_fmap. by rewrite IH.
Qed.

(** ** The conversion *)

Lemma write_all_error env writer rs tr e :
  (write_all env writer rs tr).1 = Some e → ∃ err, e = WriteError "CSV record" err.
Proof.
  revert tr. induction rs as [|r rs IH]; intros tr; cbn; [done|].
  destruct (write_err env tr) as [err|]; [|apply IH].
  intros [= <-]. by exists err.
Qed.

Ltac run_conversion :=
  unfold ConvertXESToCSV, mbind, M_bind, mret, M_ret, perform, defer, write;
  cbv beta iota zeta.

Lemma ConvertXESToCSV_invalid env XESFilePath CSVFilePath tr :
  isValidXESFile (filepath_Clean env XESFilePath) = false →
  ConvertXESToCSV env XESFilePath CSVFilePath tr
  = (Returned (Some (InvalidExtension (filepath_Clean env XESFilePath))), tr).
Proof. intros H. run_conversion. by rewrite H. Qed.

(** With a valid extension the conversion goes on to open the input, and
    the error it returns, if any, is another one. *)
Lemma ConvertXESToCSV_valid env XESFilePath CSVFilePath tr :
  isValidXESFile (filepath_Clean env XESFilePath) = true →
  ∃ r rest,
    ConvertXESToCSV env XESFilePath CSVFilePath tr
    = (Returned r, tr ++ EOpen (filepath_Clean env XESFilePath) :: rest)
    ∧ ∀ inputPath, r ≠ Some (InvalidExtension inputPath).
Proof.
  intros H. run_conversion. rewrite H. cbn [negb].
  destruct (os_Open env _) as [xesFile|err].
  2: { eexists _, []. by split. }
  destruct (xml_Decode env xesFile) as [xes|err].
  2: { eexists _, [_]. split; [by rewrite <-!app_assoc|done]. }
  destruct (os_Create env _) as [err|].
  { eexists _, [_; _]. split; [by rewrite <-!app_assoc|done]. }
  destruct (write_err env _) as [err|].
  { eexists _, [_; _; _; _]. split; [by rewrite <-!app_assoc|done]. }
  destruct (write_err env _) as [err|].
  { eexists _, [_; _; _; _; _; _]. split; [by rewrite <-!app_assoc|done]. }
  rewrite writeXESToCSV_write_all. cbn [fst snd].
  match goal with |- context [write_all ?e ?w ?rs ?t] =>
    destruct (write_all_trace e w rs t) as (n & _ & Htr & _);
    pose proof (write_all_error e w rs t) as Herr;
    destruct (write_all e w rs t) as [r tr'] end.
  cbn [fst snd] in *. subst tr'. eexists _, _. split.
  - f_equal. rewrite <-!app_assoc. cbn [app]. reflexivity.
  - intros inputPath ->. by destruct (Herr _ eq_refl).
Qed.

(** The records that a conversion hands to the CSV writer: none, or the
    header of some decoded log and then the first of its rows. *)
Lemma ConvertXESToCSV_records env XESFilePath CSVFilePath tr :
  ∃ r, (ConvertXESToCSV env XESFilePath CSVFilePath tr).1 = Returned r
  ∧ (csv_records (ConvertXESToCSV env XESFilePath CSVFilePath tr).2 = csv_records tr
     ∨ ∃ xes n,
         csv_records (ConvertXESToCSV env XESFilePath CSVFilePath tr).2
         = csv_records tr
           ++ collectHeader (range_header env) (collectAttributeKeys xes)
           :: take n (rows (collectHeader (range_rows env) (collectAttributeKeys xes))
                        xes)).
Proof.
  run_conversion.
  destruct (isValidXESFile _); cbn [negb]; [|by eexists; split; [|left]].
  destruct (os_Open env _) as [xesFile|err].
  2: { eexists. split; [done|]. left. cbn [snd].
       rewrite csv_records_app. cbn. by rewrite app_nil_r. }
  destruct (xml_Decode env xesFile) as [xes|err].
  2: { eexists. split; [done|]. left. cbn [snd].
       rewrite !csv_records_app. cbn. by rewrite !app_nil_r. }
  destruct (os_Create env _) as [err|].
  { eexists. split; [done|]. left. cbn [snd].
    rewrite !csv_records_app. cbn. by rewrite !app_nil_r. }
  destruct (write_err env _) as [err|].
  { eexists. split; [done|]. left. cbn [snd].
    rewrite !csv_records_app. cbn. by rewrite !app_nil_r. }
  destruct (write_err env _) as [err|].
  { eexists. split; [done|]. right. exists xes, 0%nat. cbn [snd].
    rewrite !csv_records_app. cbn. by rewrite !app_nil_r. }
  rewrite writeXESToCSV_write_all. cbn [fst snd].
  match goal with |- context [write_all ?e ?w ?rs ?t] =>
    destruct (write_all_trace e w rs t) as (n & _ & Htr & _);
    destruct (write_all e w rs t) as [r tr'] end.
  cbn [fst snd] in *. subst tr'. eexists. split; [done|]. right. exists xes, n.
  rewrite !csv_records_app, csv_records_ECsvWrite. cbn.
  by rewrite !app_nil_r, <-app_assoc.
Qed.

(** ** Cleaning keeps the extension *)

Lemma IsPathSeparator_true c : filepath.IsPathSeparator c = true ↔ c = Some "/"%char.
Proof. apply bool_decide_eq_true. Qed.

Lemma IsPathSeparator_false c : filepath.IsPathSeparator c = false ↔ c ≠ Some "/"%char.
Proof. apply bool_decide_eq_false. Qed.

Lemma Clean_loop_done rounds path rooted r out dotdot :
  (length path ≤ r)%nat →
  filepath.Clean_loop rounds path rooted r out dotdot = out.
Proof.
  intros Hr. destruct rounds; [done|]. cbn [filepath.Clean_loop].
  by rewrite (proj2 (Nat.ltb_ge r (length path))) by lia.
Qed.

Lemma element_no_separator l : "/"%char ∉ l → filepath.element l = l.
Proof.
  induction l as [|c l IH]; [done|]. intros [Hc Hl]%not_elem_of_cons. cbn.
  destruct (filepath.IsPathSeparator (Some c)) eqn:Hsep.
  - apply IsPathSeparator_true in Hsep. congruence.
  - by rewrite IH.
Qed.

Lemma element_app_separator l1 l2 :
  (length (filepath.element (l1 ++ "/"%char :: l2)) ≤ length l1)%nat.
Proof.
  induction l1 as [|c l1 IH].
  { cbn [app filepath.element]. by rewrite (proj2 (IsPathSeparator_true _)). }
  cbn [app filepath.element length].
  destruct (filepath.IsPathSeparator (Some c)); cbn [length]; lia.
Qed.

Lemma element_nonempty c l :
  filepath.IsPathSeparator (Some c) = false →
  (0 < length (filepath.element (c :: l)))%nat.
Proof. intros H. cbn. rewrite H. cbn. lia. Qed.

(** A list is its first element and a rest that is empty or starts with
    a separator. *)
Lemma element_split l :
  ("/"%char ∉ filepath.element l)
  ∧ ∃ rest, l = filepath.element l ++ rest
            ∧ (rest = [] ∨ ∃ rest', rest = "/"%char :: rest').
Proof.
  induction l as [|c l (IH1 & rest & IH2 & IH3)]; cbn [filepath.element].
  - split; [apply not_elem_of_nil|]. exists []. split; [done|by left].
  - destruct (filepath.IsPathSeparator (Some c)) eqn:Hc.
    + apply IsPathSeparator_true in Hc as [= ->].
      split; [apply not_elem_of_nil|]. exists ("/"%char :: l). split; [done|].
      right. by exists l.
    + apply IsPathSeparator_false in Hc. split.
      * apply not_elem_of_cons. split; [congruence|done].
      * exists rest. split; [|done]. cbn [app]. by rewrite <-IH2.
Qed.

Section last_element.

(** A path [pre ++ el] whose last element [el] has three bytes or more,
    so that it is neither [.] nor [..]; [pre] is empty or ends in a
    separator. *)
Variables (pre el : list ascii) (rooted : bool).
Hypothesis Hpre : pre = [] ∨ ∃ pre0, pre = pre0 ++ ["/"%char].
Hypothesis Hel : "/"%char ∉ el.
Hypothesis Hlen : (3 ≤ length el)%nat.

Lemma lookup_separator j : (pre ++ el) !! j = Some "/"%char → (j < length pre)%nat.
Proof using Hel.
  clear Hpre Hlen. intros Hj. destruct (decide (j < length pre)%nat) as [|Hge]; [done|].
  rewrite lookup_app_r in Hj by lia.
  destruct Hel. by eapply list_elem_of_lookup_2.
Qed.

(** The loop of [Clean] reaches the last element at its first byte and
    copies it to the end of the output. *)
Lemma Clean_loop_last_element rounds r out dotdot :
  (r ≤ length pre)%nat →
  (length (pre ++ el) - r ≤ rounds)%nat →
  el `suffix_of` filepath.Clean_loop rounds (pre ++ el) rooted r out dotdot.
Proof using Hpre Hel Hlen.
  revert r out dotdot. induction rounds as [|rounds IH]; intros r out dotdot Hr Hrounds.
  { rewrite length_app in Hrounds. lia. }
  cbn [filepath.Clean_loop]. cbv zeta.
  assert (Hn : length (pre ++ el) = (length pre + length el)%nat) by apply length_app.
  rewrite (proj2 (Nat.ltb_lt r (length (pre ++ el)))) by lia. cbn [negb].
  destruct (decide (r = length pre)) as [->|Hne].
  - (* the last element *)
    assert (Hsep : ∀ i, (i < length el)%nat →
              filepath.IsPathSeparator ((pre ++ el) !! (length pre + i)%nat) = false).
    { intros i Hi. apply IsPathSeparator_false. intros Hs.
      apply lookup_separator in Hs. lia. }
    pose proof (Hsep 0%nat) as H0. rewrite Nat.add_0_r in H0.
    rewrite H0, (Hsep 1%nat), (Hsep 2%nat) by lia.
    rewrite (proj2 (Nat.eqb_neq (length pre + 1) (length (pre ++ el)))) by lia.
    rewrite (proj2 (Nat.eqb_neq (length pre + 2) (length (pre ++ el)))) by lia.
    rewrite !andb_false_r. cbn [orb].
    rewrite drop_app_length, element_no_separator by done.
    rewrite Clean_loop_done by lia.
    by apply suffix_app_r.
  - (* an element before the last *)
    assert (Hlt : (r < length pre)%nat) by lia.
    destruct Hpre as [->|[pre0 Hpre0]]; [cbn in Hlt; lia|].
    assert (Hlen0 : length pre = S (length pre0)).
    { rewrite Hpre0, length_app. cbn. lia. }
    destruct (filepath.IsPathSeparator ((pre ++ el) !! r)) eqn:H1.
    { apply IH; lia. }
    destruct (filepath.is_dot ((pre ++ el) !! r)
              && ((r + 1 =? length (pre ++ el))%nat
                  || filepath.IsPathSeparator ((pre ++ el) !! (r + 1)%nat))) eqn:H2.
    { apply andb_true_iff in H2 as [_ [H2|H2]%orb_true_iff].
      - apply Nat.eqb_eq in H2. lia.
      - apply IsPathSeparator_true, lookup_separator in H2. apply IH; lia. }
    destruct (filepath.is_dot ((pre ++ el) !! r)
              && filepath.is_dot ((pre ++ el) !! (r + 1)%nat)
              && ((r + 2 =? length (pre ++ el))%nat
                  || filepath.IsPathSeparator ((pre ++ el) !! (r + 2)%nat))) eqn:H3.
    { apply andb_true_iff in H3 as [_ [H3|H3]%orb_true_iff].
      - apply Nat.eqb_eq in H3. lia.
      - apply IsPathSeparator_true, lookup_separator in H3.
        destruct (dotdot <? length out)%nat; [apply IH; lia|].
        destruct (negb rooted); apply IH; lia. }
    assert (Hdrop : drop r (pre ++ el) = drop r pre0 ++ "/"%char :: el).
    { rewrite Hpre0, <-app_assoc. cbn [app]. apply drop_app_le. lia. }
    pose proof (element_app_separator (drop r pre0) el) as Hle.
    rewrite <-Hdrop, length_drop in Hle.
    destruct ((pre ++ el) !! r) as [c|] eqn:Hc.
    2: { apply lookup_ge_None in Hc. lia. }
    pose proof (element_nonempty c (drop (S r) (pre ++ el)) H1) as Hpos.
    rewrite <-(drop_S _ _ _ Hc) in Hpos.
    apply IH; lia.
Qed.

End last_element.

(** On Unix, the cleaned form of a path that ends in [.xes] ends in
    [.xes]. *)
Lemma Clean_ends_in_xes path :
  ends_in_xes path = true → ends_in_xes (filepath.Clean path) = true.
Proof.
  unfold ends_in_xes at 1.
  destruct (reverse (strings.bytes path)) as [|c [|b [|a [|dot rest]]]] eqn:Hrev;
    try done.
  intros Hext.
  assert (Hnosep : "/"%char ∉ [c; b; a; dot]).
  { rewrite !andb_true_iff, !bool_decide_eq_true in Hext.
    destruct Hext as [[[Hdot Ha] Hb] Hc].
    repeat (apply not_elem_of_cons; split); [..|apply not_elem_of_nil].
    - intros <-. by destruct Hc.
    - intros <-. by destruct Hb.
    - intros <-. by destruct Ha.
    - by intros <-. }
  destruct (element_split rest) as (Hel' & tail & Hrest & Htail).
  set (el := reverse ([c; b; a; dot] ++ filepath.element rest)).
  set (pre := reverse tail).
  assert (Hpath : strings.bytes path = pre ++ el).
  { rewrite <-(reverse_involutive (strings.bytes path)), Hrev.
    unfold pre, el. rewrite <-reverse_app, <-app_assoc, <-Hrest. done. }
  assert (Hpre : pre = [] ∨ ∃ pre0, pre = pre0 ++ ["/"%char]).
  { destruct Htail as [->|[tail' ->]]; [by left|right].
    exists (reverse tail'). unfold pre. by rewrite reverse_cons. }
  assert (Hel : "/"%char ∉ el).
  { unfold el. rewrite elem_of_reverse, elem_of_app. tauto. }
  assert (Hlen : (3 ≤ length el)%nat).
  { unfold el. rewrite length_reverse, length_app. cbn. lia. }
  assert (Hout : ∃ k, strings.bytes (filepath.Clean path) = k ++ el) .
  { unfold filepath.Clean. cbv zeta. rewrite Hpath.
    destruct (pre ++ el) as [|c0 l0] eqn:Hb.
    { apply (f_equal length) in Hb. rewrite length_app in Hb. cbn [length] in Hb. lia. }
    rewrite <-Hb.
    assert (∃ out, (if filepath.IsPathSeparator (Some c0)
              then filepath.Clean_loop (length (pre ++ el)) (pre ++ el)
                     (filepath.IsPathSeparator (Some c0)) 1 ["/"%char] 1
              else filepath.Clean_loop (length (pre ++ el)) (pre ++ el)
                     (filepath.IsPathSeparator (Some c0)) 0 [] 0) = out
              ∧ el `suffix_of` out) as (out & -> & [k ->]).
    { eexists. split; [done|].
      destruct (filepath.IsPathSeparator (Some c0)) eqn:Hc0.
      - apply IsPathSeparator_true in Hc0 as [= ->].
        assert ((pre ++ el) !! 0%nat = Some "/"%char) as Hs by (by rewrite Hb).
        apply (lookup_separator pre el Hel) in Hs.
        apply (Clean_loop_last_element pre el _ Hpre Hel Hlen); lia.
      - apply (Clean_loop_last_element pre el _ Hpre Hel Hlen); lia. }
    exists k. destruct (k ++ el) eqn:Hk.
    { apply (f_equal length) in Hk. rewrite length_app in Hk. cbn [length] in Hk. lia. }
    by rewrite bytes_of_bytes. }
  destruct Hout as [k Hout]. unfold ends_in_xes. rewrite Hout.
  unfold el. rewrite reverse_app, reverse_involutive. exact Hext.
Qed.

(** * The properties of the specification *)

(** ** Errors before the output exists *)

(** C7: when the bytes of the input file do not decode as an XES
    document, the conversion returns the parse error, and all it has done
    by then is to open and to close the input file: the output file is
    neither created nor written, since the decoding comes before
    [os.Create]. *)
Theorem C7_parse_error_leaves_output_untouched
    env XESFilePath CSVFilePath tr xesFile err :
  isValidXESFile (filepath_Clean env XESFilePath) = true →
  os_Open env (filepath_Clean env XESFilePath) = inl xesFile →
  xml_Decode env xesFile = inr err →
  let inputPath := filepath_Clean env XESFilePath in
  ConvertXESToCSV env XESFilePath CSVFilePath tr
  = (Returned (Some (ParseError err)), tr ++ [EOpen inputPath; EClose inputPath])
  ∧ Forall (λ e, modifies e = false) [EOpen inputPath; EClose inputPath].
Proof.
  intros Hvalid Hopen Hdecode inputPath. split.
  - run_conversion. rewrite Hvalid, Hopen, Hdecode. cbn [negb].
    by rewrite <-app_assoc.
  - by repeat constructor.
Qed.

Lemma C7_parse_error_witness :
  ConvertXESToCSV (env_unix "<log><trace>" decode_fails range_elements range_elements)
    "log.xes" "log.csv" []
  = (Returned (Some (ParseError "unexpected EOF")), [EOpen "log.xes"; EClose "log.xes"]).
Proof.
  apply (C7_parse_error_leaves_output_untouched
           (env_unix "<log><trace>" decode_fails range_elements range_elements)
           "log.xes" "log.csv" [] "<log><trace>" "unexpected EOF");
    reflexivity.
Defined.

(** C8, as the program has it: the extension is tested on the path that
    [filepath.Clean] returns.  When that path does not end in [.xes]
    (in any letter case) the conversion fails with the invalid-extension
    error and has done nothing; when it does, the test passes, the next
    thing done is to open the file, and the conversion does not return
    that error.  With the cleaning of Unix, the cleaned path ends in
    [.xes] whenever the path itself does. *)
Theorem C8_extension_of_the_cleaned_path env XESFilePath CSVFilePath tr :
  let inputPath := filepath_Clean env XESFilePath in
  (if ends_in_xes inputPath
   then isValidXESFile inputPath = true
        ∧ ∃ r rest,
            ConvertXESToCSV env XESFilePath CSVFilePath tr
            = (Returned r, tr ++ EOpen inputPath :: rest)
            ∧ ∀ path, r ≠ Some (InvalidExtension path)
   else ConvertXESToCSV env XESFilePath CSVFilePath tr
        = (Returned (Some (InvalidExtension inputPath)), tr))
  ∧ (ends_in_xes XESFilePath = true →
     ends_in_xes (filepath.Clean XESFilePath) = true).
Proof.
  intros inputPath. split; [|apply Clean_ends_in_xes].
  rewrite <-isValidXESFile_ends_in_xes.
  destruct (isValidXESFile inputPath) eqn:H.
  - split; [done|]. by apply ConvertXESToCSV_valid.
  - by apply ConvertXESToCSV_invalid.
Qed.

Lemma C8_extension_witness :
  ConvertXESToCSV
    (env_unix "<log/>" (decode_as log_scenario) range_elements range_elements)
    "notes/../log.xml" "log.csv" []
  = (Returned (Some (InvalidExtension "log.xml")), [])
  ∧ ends_in_xes (filepath.Clean "notes/../Log.XES") = true.
Proof.
  split.
  - exact (proj1 (C8_extension_of_the_cleaned_path
             (env_unix "<log/>" (decode_as log_scenario) range_elements range_elements)
             "notes/../log.xml" "log.csv" [])).
  - apply (proj2 (C8_extension_of_the_cleaned_path
             (env_unix "<log/>" (decode_as log_scenario) range_elements range_elements)
             "notes/../Log.XES" "log.csv" [])).
    reflexivity.
Defined.

(** C8, as it is stated, fails on a path with a trailing separator: on
    Unix, [foo.xes/] does not end in [.xes], yet [filepath.Clean] turns
    it into [foo.xes], the test passes and the file is opened and
    converted. *)
Lemma C8_trailing_separator_is_accepted :
  ends_in_xes "foo.xes/" = false
  ∧ ConvertXESToCSV
      (env_unix "<log/>" (decode_as (XES.mk ("", "log") []))
         range_elements range_elements)
      "foo.xes/" "foo.csv" []
    = (Returned None,
       [EOpen "foo.xes"; ECreate "foo.csv"; EWriteString "foo.csv" BOM;
        ECsvWrite "foo.csv" []; EFlush "foo.csv"; EClose "foo.csv";
        EClose "foo.xes"]).
Proof. split; vm_compute; reflexivity. Qed.

(** ** The rows *)

(** C10: [findIndex] returns -1 or an index below the length of the
    header; on a record as long as the header [setAttributeValue] never
    writes out of bounds (it returns, and the record keeps its length);
    the record of every event is built without a panic and is as long as
    the header; and in the output of a conversion every row has as many
    cells as the header that precedes it, whatever the order of the two
    loops over the key map. *)
Theorem C10_rows_fit_the_header :
  (∀ keys key,
     findIndex keys key = -1
     ∨ 0 ≤ findIndex keys key < Z.of_nat (length keys))
  ∧ (∀ record keys attr,
       length record = length keys →
       ∃ record', setAttributeValue record keys attr = Returned record'
                  ∧ length record' = length keys)
  ∧ (∀ keys trace event,
       ∃ record, event_record keys trace event = Returned record
                 ∧ length record = length keys)
  ∧ (∀ env XESFilePath CSVFilePath,
       ∃ r, (ConvertXESToCSV env XESFilePath CSVFilePath []).1 = Returned r
       ∧ ∀ header records,
           csv_records (ConvertXESToCSV env XESFilePath CSVFilePath []).2
           = header :: records →
           Forall (λ record, length record = length header) records).
Proof.
  repeat split.
  - intros keys key. rewrite findIndex_position.
    destruct (position keys key) as [i|] eqn:Hp; cbn; [right|by left].
    apply position_lt in Hp. lia.
  - intros record keys attr Hlen. eexists. split.
    + by apply setAttributeValue_put.
    + by rewrite length_put.
  - intros keys trace event. eexists. split.
    + apply event_record_row.
    + apply length_row.
  - intros env XESFilePath CSVFilePath.
    destruct (ConvertXESToCSV_records env XESFilePath CSVFilePath [])
      as (r & Hr & Hrec).
    exists r. split; [done|]. intros header records Heq.
    destruct Hrec as [Hrec|(xes & n & Hrec)]; rewrite Hrec in Heq; [done|].
    cbn in Heq. injection Heq as <- <-.
    apply Forall_forall. intros record Hin.
    apply (subseteq_take n) in Hin.
    unfold rows in Hin. apply list_elem_of_bind in Hin as (trace & Hin & _).
    apply list_elem_of_fmap in Hin as (event & -> & _).
    by rewrite length_row, !length_collectHeader.
Qed.

Lemma C10_rows_fit_witness :
  ∃ record',
    setAttributeValue [""; ""] ["activity"; "note"]
      (OfDateAttribute (DateAttribute.mk "note" "2024-01-01")) = Returned record'
    ∧ length record' = 2%nat.
Proof.
  apply (proj1 (proj2 C10_rows_fit_the_header) [""; ""] ["activity"; "note"]
           (OfDateAttribute (DateAttribute.mk "note" "2024-01-01"))).
  reflexivity.
Defined.

(** C3: when [writeXESToCSV] returns without an error, the records it has
    handed to the writer are the rows of the events, trace after trace
    and, within a trace, event after event; there are as many of them as
    the log has events. *)
Theorem C3_one_row_per_event_in_document_order env writer xes keyMap tr :
  (writeXESToCSV env writer xes keyMap tr).1 = Returned None →
  let keys := collectHeader (range_rows env) keyMap in
  let written := XES.Traces xes ≫= λ trace, row keys trace <$> Trace.Events trace in
  csv_records (writeXESToCSV env writer xes keyMap tr).2 = csv_records tr ++ written
  ∧ length written = total_events xes
  ∧ ∀ trace event,
      trace ∈ XES.Traces xes → event ∈ Trace.Events trace →
      event_record keys trace event = Returned (row keys trace event).
Proof.
  intros Hok. cbv zeta.
  change (XES.Traces xes ≫= _)
    with (rows (collectHeader (range_rows env) keyMap) xes).
  rewrite writeXESToCSV_write_all in *. cbn [fst snd] in *.
  set (keys := collectHeader (range_rows env) keyMap) in *.
  destruct (write_all_trace env writer (rows keys xes) tr) as (n & _ & -> & Hn).
  rewrite Hn by congruence. rewrite take_ge by done.
  rewrite csv_records_app, csv_records_ECsvWrite.
  split; [done|]. split; [apply length_rows|].
  intros. apply event_record_row.
Qed.

(** When no write fails, [writeXESToCSV] returns without an error. *)
Lemma writeXESToCSV_succeeds env writer xes keyMap tr :
  (∀ h, write_err env h = None) →
  (writeXESToCSV env writer xes keyMap tr).1 = Returned None.
Proof. intros Hok. by rewrite writeXESToCSV_write_all, write_all_ok. Qed.

Lemma C3_one_row_per_event_witness :
  csv_records
    (writeXESToCSV
       (env_unix "" (decode_as log_scenario) range_elements range_elements)
       "log.csv" log_scenario (collectAttributeKeys log_scenario) []).2
  = [ ["case1"; "start"; ""]; ["case1"; ""; "2024-01-01T00:00:00"] ].
Proof.
  refine (eq_trans
    (proj1 (C3_one_row_per_event_in_document_order
              (env_unix "" (decode_as log_scenario) range_elements range_elements)
              "log.csv" log_scenario (collectAttributeKeys log_scenario) [] _)) _).
  - vm_compute. reflexivity.
  - vm_compute. reflexivity.
Defined.

Lemma last_write_None keys i ws :
  (∀ kv, kv ∈ ws → position keys kv.1 ≠ Some i) → last_write keys i ws = None.
Proof.
  intros Hnone. destruct (last_write keys i ws) as [v|] eqn:Hl; [|done].
  apply last_write_Some in Hl as (kv & Hin & Hp & _). by destruct (Hnone kv Hin).
Qed.

Lemma last_write_split keys i ws1 kv ws2 :
  position keys kv.1 = Some i →
  (∀ kv', kv' ∈ ws2 → position keys kv'.1 ≠ Some i) →
  last_write keys i (ws1 ++ kv :: ws2) = Some (strings.TrimSpace kv.2).
Proof.
  intros Hp Hlater.
  rewrite (last_write_app keys i ws1 (kv :: ws2)).
  change (kv :: ws2) with ([kv] ++ ws2).
  rewrite (last_write_app keys i [kv] ws2), (last_write_None keys i ws2) by done.
  change [kv] with ([] ++ [kv]).
  rewrite (last_write_snoc keys i [] kv). by rewrite decide_True.
Qed.

(** C2: the record of an event is built from the string attributes of the
    event, then its date attributes, then the string attributes of its
    trace under their renamed keys.  In a column, the last of these
    writes stays; a column that none of them writes is empty; and a
    column that a trace attribute writes holds the value of a trace
    attribute, whatever the event has written there. *)
Theorem C2_last_write_wins_and_trace_is_last keys trace event i :
  (i < length keys)%nat →
  ∃ record,
    event_record keys trace event = Returned record
    ∧ event_writes trace event
      = ((λ a, (StringAttribute.Key a, StringAttribute.Value a))
           <$> Event.StringAttributes event)
        ++ ((λ a, (DateAttribute.Key a, DateAttribute.Value a))
              <$> Event.DateAttributes event)
        ++ ((λ a, (rename (StringAttribute.Key a), StringAttribute.Value a))
              <$> Trace.StringAttributes trace)
    ∧ (∀ earlier key value later,
         event_writes trace event = earlier ++ (key, value) :: later →
         position keys key = Some i →
         (∀ kv, kv ∈ later → position keys kv.1 ≠ Some i) →
         record !! i = Some (strings.TrimSpace value))
    ∧ ((∀ kv, kv ∈ event_writes trace event → position keys kv.1 ≠ Some i) →
       record !! i = Some "")
    ∧ (∀ a, a ∈ Trace.StringAttributes trace →
            position keys (rename (StringAttribute.Key a)) = Some i →
            ∃ a', a' ∈ Trace.StringAttributes trace
                  ∧ position keys (rename (StringAttribute.Key a')) = Some i
                  ∧ record !! i = Some (strings.TrimSpace (StringAttribute.Value a'))).
Proof.
  intros Hi. exists (row keys trace event).
  split; [apply event_record_row|]. split; [done|].
  rewrite row_lookup by done. repeat split.
  - intros earlier key value later -> Hp Hlater.
    by rewrite (last_write_split keys i earlier (key, value) later).
  - intros Hnone. by rewrite last_write_None.
  - intros a Hin Hp. unfold event_writes.
    rewrite app_assoc, last_write_app.
    set (T := (λ a, (rename (StringAttribute.Key a), StringAttribute.Value a))
                <$> Trace.StringAttributes trace).
    destruct (last_write_is_Some keys i T
                (rename (StringAttribute.Key a), StringAttribute.Value a))
      as [v Hv]; [|done|].
    { by apply (list_elem_of_fmap_2
        (λ a, (rename (StringAttribute.Key a), StringAttribute.Value a))). }
    rewrite Hv. apply last_write_Some in Hv as (kv & Hkv & Hpos & ->).
    apply list_elem_of_fmap in Hkv as (a' & -> & Hin').
    by exists a'.
Qed.

Lemma C2_trace_value_wins_witness :
  ∃ record,
    event_record ["case:concept:name"]
      (Trace.mk [] [StringAttribute.mk "concept:name" " trace "])
      (Event.mk [StringAttribute.mk "case:concept:name" "event"] [])
    = Returned record
    ∧ record !! 0%nat = Some "trace".
Proof.
  destruct (C2_last_write_wins_and_trace_is_last ["case:concept:name"]
              (Trace.mk [] [StringAttribute.mk "concept:name" " trace "])
              (Event.mk [StringAttribute.mk "case:concept:name" "event"] [])
              0%nat ltac:(cbn; lia))
    as (record & Hrecord & _ & Hlast & _).
  exists record. split; [exact Hrecord|].
  apply (Hlast [("case:concept:name", "event")] "case:concept:name" " trace " []).
  - reflexivity.
  - reflexivity.
  - intros kv Hkv. by apply elem_of_nil in Hkv.
Defined.

Lemma elem_of_event_keys event k :
  k ∈ event_keys event
  ↔ (∃ a, a ∈ Event.StringAttributes event ∧ k = StringAttribute.Key a)
    ∨ (∃ a, a ∈ Event.DateAttributes event ∧ k = DateAttribute.Key a).
Proof.
  unfold event_keys. rewrite elem_of_app, !list_elem_of_fmap.
  split; (intros [(a & H1 & H2)|(a & H1 & H2)]; [left|right]; by exists a).
Qed.

Lemma elem_of_trace_keys trace k :
  k ∈ trace_keys trace
  ↔ (∃ a, a ∈ Trace.StringAttributes trace ∧ k = rename (StringAttribute.Key a))
    ∨ (∃ event, k ∈ event_keys event ∧ event ∈ Trace.Events trace).
Proof.
  unfold trace_keys. rewrite elem_of_app, list_elem_of_fmap, list_elem_of_bind.
  split; (intros [(a & H1 & H2)|H]; [left; by exists a|by right]).
Qed.

(** C4: a key is collected exactly when it is the renamed key of a string
    attribute of a trace, or the key, as it is, of a string or a date
    attribute of an event; and the record of an event is written under
    the same keys: those of the event's attributes as they are, those of
    the trace's string attributes renamed.  The renaming changes
    [concept:name] into [case:concept:name] and no other key. *)
Theorem C4_only_trace_keys_are_renamed :
  (∀ xes k,
     k ∈ collectAttributeKeys xes
     ↔ ∃ trace, trace ∈ XES.Traces xes
         ∧ ((∃ a, a ∈ Trace.StringAttributes trace
                  ∧ k = rename (StringAttribute.Key a))
            ∨ ∃ event, event ∈ Trace.Events trace
                ∧ ((∃ a, a ∈ Event.StringAttributes event
                         ∧ k = StringAttribute.Key a)
                   ∨ (∃ a, a ∈ Event.DateAttributes event
                           ∧ k = DateAttribute.Key a))))
  ∧ (∀ keys trace event,
       event_record keys trace event
       = Returned
           (foldl (put keys) (replicate (length keys) "")
              (((λ a, (StringAttribute.Key a, StringAttribute.Value a))
                  <$> Event.StringAttributes event)
               ++ ((λ a, (DateAttribute.Key a, DateAttribute.Value a))
                     <$> Event.DateAttributes event)
               ++ ((λ a, (rename (StringAttribute.Key a), StringAttribute.Value a))
                     <$> Trace.StringAttributes trace))))
  ∧ (∀ key, rename key
            = if String.eqb key "concept:name" then "case:concept:name" else key).
Proof.
  split; [|split].
  - intros xes k. rewrite elem_of_collectAttributeKeys. unfold log_keys.
    rewrite list_elem_of_bind. split.
    + intros (trace & Hk & Htrace). exists trace. split; [done|].
      apply elem_of_trace_keys in Hk as [Hk|(event & Hk & Hevent)]; [by left|].
      right. exists event. split; [done|]. by apply elem_of_event_keys.
    + intros (trace & Htrace & Hk). exists trace. split; [|done].
      apply elem_of_trace_keys. destruct Hk as [Hk|(event & Hevent & Hk)]; [by left|].
      right. exists event. split; [|done]. by apply elem_of_event_keys.
  - intros keys trace event. apply event_record_row.
  - intros key. unfold rename. destruct (String.eqb_spec key "concept:name").
    + by rewrite decide_True.
    + by rewrite decide_False.
Qed.



(** ** The header and the keys with surrounding white space *)


(** When no key of the log has surrounding white space, every key is a
    column and no column is repeated. *)
Lemma header_of_trimmed_keys ρ xes :
  (∀ k, k ∈ log_keys xes → strings.TrimSpace k = k) →
  NoDup (collectHeader ρ (collectAttributeKeys xes))
  ∧ ∀ c, c ∈ collectHeader ρ (collectAttributeKeys xes) ↔ c ∈ log_keys xes.
Proof.
  intros Hclean.
  destruct (collectHeader_clean ρ (collectAttributeKeys xes)) as [Heq Hnd].
  { intros k Hk. by apply Hclean, elem_of_collectAttributeKeys. }
  split; [done|]. intros c.
  by rewrite Heq, elem_of_range, elem_of_collectAttributeKeys.
Qed.

(** C1 fails on a log with the keys [" a"] and ["a"]: both are collected,
    both are trimmed to ["a"], and the header names the column ["a"]
    twice, in every order of the loop over the key map. *)
Theorem C1_twin_keys_repeat_a_column ρ :
  log_keys log_twin_keys = [" a"; "a"]
  ∧ collectHeader ρ (collectAttributeKeys log_twin_keys) = ["a"; "a"]
  ∧ ¬ NoDup (collectHeader ρ (collectAttributeKeys log_twin_keys)).
Proof.
  assert (collectHeader ρ (collectAttributeKeys log_twin_keys) = ["a"; "a"]) as ->.
  { symmetry. apply (replicate_Permutation 2 "a").
    rewrite collectHeader_perm. by vm_compute. }
  split; [done|]. split; [done|].
  intros Hnd. apply NoDup_cons in Hnd as [Hnotin _].
  apply Hnotin. by left.
Qed.

Lemma event_writes_log_keys xes trace event kv :
  trace ∈ XES.Traces xes → event ∈ Trace.Events trace →
  kv ∈ event_writes trace event → kv.1 ∈ log_keys xes.
Proof.
  intros Htrace Hevent Hkv. unfold log_keys.
  apply list_elem_of_bind. exists trace. split; [|done].
  apply elem_of_trace_keys. unfold event_writes in Hkv.
  rewrite !elem_of_app, !list_elem_of_fmap in Hkv.
  destruct Hkv as [(a & -> & Ha)|[(a & -> & Ha)|(a & -> & Ha)]]; cbn [fst].
  - right. exists event. split; [|done]. apply elem_of_event_keys. left. by exists a.
  - right. exists event. split; [|done]. apply elem_of_event_keys. right. by exists a.
  - left. by exists a.
Qed.





(** ** The scenario of the specification *)

(** The records of a conversion on a system where nothing fails: the
    header in the order of the first loop over the key map, then the rows
    laid out in the order of the second. *)
Lemma ConvertXESToCSV_unix content xes ρ1 ρ2 XESFilePath CSVFilePath :
  isValidXESFile (filepath.Clean XESFilePath) = true →
  (ConvertXESToCSV (env_unix content (decode_as xes) ρ1 ρ2)
     XESFilePath CSVFilePath []).1 = Returned None
  ∧ csv_records
      (ConvertXESToCSV (env_unix content (decode_as xes) ρ1 ρ2)
         XESFilePath CSVFilePath []).2
    = collectHeader ρ1 (collectAttributeKeys xes)
      :: rows (collectHeader ρ2 (collectAttributeKeys xes)) xes.
Proof.
  intros Hvalid. run_conversion. cbn [env_unix filepath_Clean os_Open xml_Decode
    os_Create write_err range_header range_rows decode_as].
  rewrite Hvalid. cbn [negb]. rewrite writeXESToCSV_write_all.
  rewrite write_all_ok by done. cbn [fst snd env_unix range_rows].
  split; [done|].
  rewrite !csv_records_app, csv_records_ECsvWrite. cbn.
  by rewrite !app_nil_r.
Qed.

(** Whenever the two loops over the key map run in the same order,
    whichever it is, the header has the three columns of the scenario and
    its two rows hold their values under them. *)
Lemma scenario_with_one_order ρ :
  ∃ header row1 row2,
    csv_records
      (ConvertXESToCSV (env_unix "" (decode_as log_scenario) ρ ρ)
         "log.xes" "log.csv" []).2
    = [header; row1; row2]
    ∧ header ≡ₚ ["case:concept:name"; "activity"; "timestamp"]
    ∧ under header row1 "case:concept:name" = Some "case1"
    ∧ under header row1 "activity" = Some "start"
    ∧ under header row1 "timestamp" = Some ""
    ∧ under header row2 "case:concept:name" = Some "case1"
    ∧ under header row2 "activity" = Some ""
    ∧ under header row2 "timestamp" = Some "2024-01-01T00:00:00".
Proof.
  assert (isValidXESFile (filepath.Clean "log.xes") = true) as Hvalid
    by (by vm_compute).
  destruct (ConvertXESToCSV_unix "" log_scenario ρ ρ "log.xes" "log.csv" Hvalid)
    as [_ ->].
  rewrite collectHeader_fmap.
  assert (elements (collectAttributeKeys log_scenario)
          = ["case:concept:name"; "activity"; "timestamp"]) as Hkeys
    by (by vm_compute).
  pose proof (range_perm ρ (collectAttributeKeys log_scenario)) as Hperm.
  rewrite Hkeys in Hperm. symmetry in Hperm.
  apply permutations_Permutation in Hperm.
  generalize dependent (range ρ (collectAttributeKeys log_scenario)).
  intros keys Hperm. clear Hkeys Hvalid.
  change (permutations ["case:concept:name"; "activity"; "timestamp"])
    with [ ["case:concept:name"; "activity"; "timestamp"];
           ["activity"; "case:concept:name"; "timestamp"];
           ["activity"; "timestamp"; "case:concept:name"];
           ["case:concept:name"; "timestamp"; "activity"];
           ["timestamp"; "case:concept:name"; "activity"];
           ["timestamp"; "activity"; "case:concept:name"] ] in Hperm.
  repeat (apply elem_of_cons in Hperm as [->|Hperm]);
    [..|by apply elem_of_nil in Hperm].
  all: eexists _, _, _.
  all: (split; [by vm_compute|]).
  all: (split; [|by vm_compute]).
  - done.
  - apply perm_swap.
  - etrans; [|apply perm_swap]. apply perm_skip, perm_swap.
  - apply perm_skip, perm_swap.
  - etrans; [apply perm_swap|]. apply perm_skip, perm_swap.
  - etrans; [apply perm_swap|].
    etrans; [apply perm_skip, perm_swap|]. apply perm_swap.
Qed.

(** C6 fails when the second loop over the key map starts one key
    further on than the first, as the Go runtime is free to do: the
    header is written in the order of the first loop and the rows are
    laid out in the order of the second, so that the first row has
    [start] under [case:concept:name] and [case1] under [timestamp]. *)
Theorem C6_rows_slip_under_other_columns :
  ∃ header row1 row2,
    ConvertXESToCSV
      (env_unix "" (decode_as log_scenario) range_elements (range_rotated 1))
      "log.xes" "log.csv" []
    = (Returned None,
       [EOpen "log.xes"; ECreate "log.csv"; EWriteString "log.csv" BOM;
        ECsvWrite "log.csv" header; ECsvWrite "log.csv" row1;
        ECsvWrite "log.csv" row2;
        EFlush "log.csv"; EClose "log.csv"; EClose "log.xes"])
    ∧ header = ["case:concept:name"; "activity"; "timestamp"]
    ∧ row1 = ["start"; ""; "case1"]
    ∧ row2 = [""; "2024-01-01T00:00:00"; "case1"]
    ∧ under header row1 "case:concept:name" = Some "start"
    ∧ under header row1 "activity" = Some ""
    ∧ under header row1 "timestamp" = Some "case1".
Proof. eexists _, _, _. split; [by vm_compute|]. by repeat split. Qed.

(** * Further properties of the program *)

(** ** The test of the extension *)

Lemma bytes_append s t :
  strings.bytes (s +:+ t) = strings.bytes s ++ strings.bytes t.
Proof.
  unfold strings.bytes. induction s as [|c s IH]; [done|].
  simpl. by rewrite IH.
Qed.

(** X1: [isValidXESFile] accepts exactly the paths made of any stem,
    which may be empty, then a dot and the letters x, e, s, each in
    either case; in particular no path of fewer than four bytes. *)
Theorem X1_isValidXESFile_accepts_dot_xes path :
  isValidXESFile path = true
  ↔ ∃ stem x e s,
      path = stem +:+ String "."%char (String x (String e (String s "")))
      ∧ (x = "x"%char ∨ x = "X"%char)
      ∧ (e = "e"%char ∨ e = "E"%char)
      ∧ (s = "s"%char ∨ s = "S"%char).
Proof.
  rewrite isValidXESFile_ends_in_xes. unfold ends_in_xes. split.
  - destruct (reverse (strings.bytes path)) as [|s [|e [|x [|dot rest]]]] eqn:Hrev;
      try done.
    rewrite !andb_true_iff, !bool_decide_eq_true. intros [[[-> Hx] He] Hs].
    exists (strings.of_bytes (reverse rest)), x, e, s. split; [|done].
    apply bytes_inj. rewrite bytes_append, bytes_of_bytes.
    rewrite <-(reverse_involutive (strings.bytes path)), Hrev.
    rewrite !reverse_cons, <-!app_assoc. done.
  - intros (stem & x & e & s & -> & Hx & He & Hs).
    rewrite bytes_append, reverse_app. cbn [strings.bytes String.list_ascii_of_string].
    rewrite !reverse_cons, reverse_nil. cbn [app].
    rewrite !andb_true_iff, !bool_decide_eq_true. done.
Qed.

(** ** The search for a column *)

(** X2: [findIndex] returns the index of the first element equal to the
    key, and -1 exactly when no element is. *)
Theorem X2_findIndex_first_occurrence keys key :
  (findIndex keys key = -1 ↔ key ∉ keys)
  ∧ ∀ i : nat,
      findIndex keys key = Z.of_nat i
      ↔ keys !! i = Some key ∧ ∀ j, (j < i)%nat → keys !! j ≠ Some key.
Proof.
  rewrite findIndex_position. split.
  - rewrite <-position_None. destruct (position keys key); cbn; [|done].
    split; [lia|done].
  - intros i. split.
    + destruct (position keys key) as [i'|] eqn:Hp; cbn; [|lia].
      intros ->%Nat2Z.inj. by apply position_Some.
    + intros [Hi Hfirst].
      destruct (position_is_Some keys key) as [i' Hp];
        [by eapply list_elem_of_lookup_2|].
      rewrite Hp. cbn. f_equal.
      apply position_Some in Hp as [Hi' Hfirst'].
      destruct (Nat.lt_trichotomy i' i) as [Hlt|[->|Hlt]]; [|done|].
      * by destruct (Hfirst i' Hlt).
      * by destruct (Hfirst' i Hlt).
Qed.

(** ** Setting a cell *)

(** What [setAttributeValue] does on a record of any length. *)
Lemma setAttributeValue_cases record keys attr :
  setAttributeValue record keys attr
  = match position keys (any_key attr) with
    | None => Returned record
    | Some i =>
        if decide (i < length record)%nat
        then Returned (<[i := strings.TrimSpace (any_value attr)]> record)
        else Panicked
    end.
Proof.
  assert (∀ key v,
    (let index := findIndex keys key in
     if negb (index =? -1) then store record index (strings.TrimSpace v)
     else Returned record)
    = match position keys key with
      | None => Returned record
      | Some i =>
          if decide (i < length record)%nat
          then Returned (<[i := strings.TrimSpace v]> record)
          else Panicked
      end) as Hgen.
  { intros key v. cbv zeta. rewrite findIndex_position. unfold store.
    destruct (position keys key) as [i|]; cbn [from_option]; [|done].
    rewrite (proj2 (Z.eqb_neq (Z.of_nat i) (-1))) by lia. cbn [negb].
    destruct (decide (i < length record)%nat).
    - rewrite bool_decide_eq_true_2 by lia. by rewrite Nat2Z.id.
    - by rewrite bool_decide_eq_false_2 by lia. }
  destruct attr as [v|v]; apply Hgen.
Qed.

(** X3: on a record of any length, [setAttributeValue] leaves the record
    as it is when no column has the key of the attribute; when [findIndex]
    finds the key at [i], it stores the trimmed value there if the record
    has a cell [i] (and the record keeps its length), and panics if the
    record is too short. *)
Theorem X3_setAttributeValue_skips_or_stores_or_panics record keys attr :
  (any_key attr ∉ keys → setAttributeValue record keys attr = Returned record)
  ∧ ∀ i : nat,
      findIndex keys (any_key attr) = Z.of_nat i →
      if decide (i < length record)%nat
      then ∃ record',
             setAttributeValue record keys attr = Returned record'
             ∧ length record' = length record
             ∧ record' !! i = Some (strings.TrimSpace (any_value attr))
             ∧ ∀ j, j ≠ i → record' !! j = record !! j
      else setAttributeValue record keys attr = Panicked.
Proof.
  rewrite setAttributeValue_cases, findIndex_position. split.
  - intros Hk. by apply position_None in Hk as ->.
  - intros i. destruct (position keys (any_key attr)) as [i'|]; cbn; [|lia].
    intros ->%Nat2Z.inj. destruct (decide (i < length record)%nat); [|done].
    eexists. split; [done|]. split; [apply length_insert|].
    split; [by apply list_lookup_insert_eq|].
    intros j Hj. by apply list_lookup_insert_ne.
Qed.

Lemma X3_short_record_witness :
  setAttributeValue [""] ["activity"; "note"]
    (OfStringAttribute (StringAttribute.mk "note" "late")) = Panicked.
Proof.
  exact (proj2 (X3_setAttributeValue_skips_or_stores_or_panics [""]
                  ["activity"; "note"]
                  (OfStringAttribute (StringAttribute.mk "note" "late")))
               1%nat eq_refl).
Defined.



(** ** The key map and the header *)


(** X5: the keys of a log are collected trace by trace: the key map of
    the traces [ts1 ++ ts2] is the union of the key maps of [ts1] and of
    [ts2], so that the order of the traces and the name of the root do
    not matter; a log without traces has no key. *)
Theorem X5_collectAttributeKeys_is_a_union name1 name2 name ts1 ts2 :
  collectAttributeKeys (XES.mk name (ts1 ++ ts2))
  = collectAttributeKeys (XES.mk name1 ts1) ∪ collectAttributeKeys (XES.mk name2 ts2)
  ∧ collectAttributeKeys (XES.mk name (ts1 ++ ts2))
    = collectAttributeKeys (XES.mk name (ts2 ++ ts1))
  ∧ collectAttributeKeys (XES.mk name []) = ∅.
Proof.
  assert (∀ n1 n2 n l1 l2,
    collectAttributeKeys (XES.mk n (l1 ++ l2))
    = collectAttributeKeys (XES.mk n1 l1) ∪ collectAttributeKeys (XES.mk n2 l2)) as H.
  { intros n1 n2 n l1 l2. apply set_eq. intros k.
    rewrite elem_of_union, !elem_of_collectAttributeKeys. unfold log_keys.
    cbn [XES.Traces]. by rewrite bind_app, elem_of_app. }
  split; [apply H|]. split; [|done].
  rewrite (H name name name ts1 ts2), (H name name name ts2 ts1).
  apply set_eq. intros k. rewrite !elem_of_union. tauto.
Qed.


(** X7: the headers that two loops over the same key map give hold the
    same columns as often, in possibly different orders; and no column
    starts with or ends in white space. *)
Theorem X7_headers_differ_in_order_only ρ1 ρ2 keyMap :
  collectHeader ρ1 keyMap ≡ₚ collectHeader ρ2 keyMap
  ∧ ∀ c, c ∈ collectHeader ρ1 keyMap →
         strings.space_prefix (strings.bytes c) = None
         ∧ strings.space_suffix (strings.bytes c) = None.
Proof.
  split.
  - by rewrite !collectHeader_perm.
  - intros c (k & _ & ->)%elem_of_collectHeader. apply TrimSpace_trimmed.
Qed.

(** ** Reading a row under the header *)

Lemma last_write_last_value keys i column ws :
  keys !! i = Some column →
  position keys column = Some i →
  last_write keys i ws = strings.TrimSpace <$> last_value column ws.
Proof.
  intros Hi Hp. unfold last_value.
  induction ws as [|kv ws IH] using rev_ind; [done|].
  rewrite last_write_snoc, filter_app, IH.
  destruct (decide (kv.1 = column)) as [Heq|Hne].
  - rewrite decide_True by (by rewrite Heq).
    rewrite (filter_cons_True _ kv []) by done.
    rewrite filter_nil, last_snoc. done.
  - rewrite decide_False.
    + rewrite (filter_cons_False _ kv []) by done.
      by rewrite filter_nil, app_nil_r.
    + intros [Hkv _]%position_Some. congruence.
Qed.





(** ** Writing the rows *)

(** The writes of [rs] succeed for the first [k] records; either these
    are all, or the next write fails and is the last one attempted. *)
Lemma write_all_stops env writer rs tr :
  ∃ k,
    (∀ m, (m < k)%nat →
          write_err env (tr ++ (ECsvWrite writer <$> take m rs)) = None)
    ∧ ((k = length rs
        ∧ write_all env writer rs tr = (None, tr ++ (ECsvWrite writer <$> rs)))
       ∨ ((k < length rs)%nat
          ∧ ∃ err,
              write_err env (tr ++ (ECsvWrite writer <$> take k rs)) = Some err
              ∧ write_all env writer rs tr
                = (Some (WriteError "CSV record" err),
                   tr ++ (ECsvWrite writer <$> take (S k) rs)))).
Proof.
  revert tr. induction rs as [|r rs IH]; intros tr.
  { exists 0%nat. split; [lia|]. left. split; [done|]. cbn. by rewrite app_nil_r. }
  cbn [write_all]. destruct (write_err env tr) as [err|] eqn:Herr.
  - exists 0%nat. split; [lia|]. right. split; [cbn; lia|].
    exists err. cbn. rewrite take_0, app_nil_r. done.
  - destruct (IH (tr ++ [ECsvWrite writer r])) as (k & Hbefore & Hk).
    assert (Hshift : ∀ l : list (list string),
      (tr ++ [ECsvWrite writer r]) ++ (ECsvWrite writer <$> l)
      = tr ++ (ECsvWrite writer <$> r :: l)).
    { intros l. by rewrite <-app_assoc. }
    exists (S k). split.
    + intros [|m] Hm; [cbn; by rewrite app_nil_r|].
      cbn [take]. rewrite <-Hshift. apply Hbefore. lia.
    + destruct Hk as [[-> Hall]|(Hlt & err & Herr' & Hstop)].
      * left. split; [done|]. by rewrite Hall, Hshift.
      * right. split; [cbn; lia|]. exists err.
        cbn [take]. rewrite <-!Hshift. done.
Qed.

(** X10: [writeXESToCSV] hands the rows of the events to the writer in
    document order until a write fails.  It never panics; if every write
    succeeds it returns nil and all rows are written; otherwise it
    returns the error of the first failing write, wrapped, and the row
    of that write is the last one it has tried to write. *)
Theorem X10_writeXESToCSV_stops_at_the_first_failure env writer xes keyMap tr :
  let keys := collectHeader (range_rows env) keyMap in
  let rs := XES.Traces xes ≫= λ trace, row keys trace <$> Trace.Events trace in
  ∃ k,
    (∀ m, (m < k)%nat →
          write_err env (tr ++ (ECsvWrite writer <$> take m rs)) = None)
    ∧ ((k = length rs
        ∧ writeXESToCSV env writer xes keyMap tr
          = (Returned None, tr ++ (ECsvWrite writer <$> rs)))
       ∨ ((k < length rs)%nat
          ∧ ∃ err,
              write_err env (tr ++ (ECsvWrite writer <$> take k rs)) = Some err
              ∧ writeXESToCSV env writer xes keyMap tr
                = (Returned (Some (WriteError "CSV record" err)),
                   tr ++ (ECsvWrite writer <$> take (S k) rs)))).
Proof.
  cbv zeta. rewrite writeXESToCSV_write_all.
  change (XES.Traces xes ≫= _)
    with (rows (collectHeader (range_rows env) keyMap) xes).
  destruct (write_all_stops env writer
              (rows (collectHeader (range_rows env) keyMap) xes) tr)
    as (k & Hbefore & [[Hk Hall]|(Hlt & err & Herr & Hstop)]).
  - exists k. split; [done|]. left. split; [done|]. by rewrite Hall.
  - exists k. split; [done|]. right. split; [done|]. exists err.
    split; [done|]. by rewrite Hstop.
Qed.

Lemma rows_filter_has_events keys name traces :
  rows keys (XES.mk name (List.filter has_events traces))
  = rows keys (XES.mk name traces).
Proof.
  unfold rows. cbn [XES.Traces].
  induction traces as [|trace traces IH]; [done|].
  cbn [List.filter]. unfold has_events at 1.
  destruct (Trace.Events trace) as [|event events] eqn:Hev.
  - rewrite IH. cbn. by rewrite Hev.
  - cbn. rewrite Hev. by rewrite <-IH.
Qed.

(** X11: a trace without events gives no row, though its attributes give
    columns: [writeXESToCSV] does on a log what it does on the log
    without its traces that have no event, and on a log in which no trace
    has an event it writes nothing and returns nil, whatever the writer
    would answer. *)
Theorem X11_traces_without_events_give_no_row env writer xes keyMap tr :
  writeXESToCSV env writer xes keyMap tr
  = writeXESToCSV env writer
      (XES.mk (XES.XMLName xes) (List.filter has_events (XES.Traces xes)))
      keyMap tr
  ∧ ((∀ trace, trace ∈ XES.Traces xes → Trace.Events trace = []) →
     writeXESToCSV env writer xes keyMap tr = (Returned None, tr)).
Proof.
  rewrite !writeXESToCSV_write_all. split.
  - rewrite rows_filter_has_events. by destruct xes.
  - intros Hnone.
    assert (rows (collectHeader (range_rows env) keyMap) xes = []) as ->; [|done].
    unfold rows. induction (XES.Traces xes) as [|trace traces IH]; [done|].
    cbn. rewrite (Hnone trace) by (by left). cbn.
    apply IH. intros t Ht. apply Hnone. by right.
Qed.

Lemma X11_trace_without_events_witness :
  writeXESToCSV
    (env_unix "" decode_fails range_elements range_elements) "log.csv"
    (XES.mk ("", "log") [Trace.mk [] [StringAttribute.mk "concept:name" "case1"]])
    {["case:concept:name"]} []
  = (Returned None, []).
Proof.
  apply (proj2 (X11_traces_without_events_give_no_row
                  (env_unix "" decode_fails range_elements range_elements) "log.csv"
                  (XES.mk ("", "log")
                     [Trace.mk [] [StringAttribute.mk "concept:name" "case1"]])
                  {["case:concept:name"]} [])).
  intros trace Htrace. apply list_elem_of_singleton in Htrace. by subst.
Defined.

(** ** The stages of a conversion *)

(** What a conversion returns and does, stage by stage: [efs] are its
    effects, in order. *)
Lemma ConvertXESToCSV_table env XESFilePath CSVFilePath tr :
  let p := filepath_Clean env XESFilePath in
  let c := filepath_Clean env CSVFilePath in
  ∃ r efs,
    ConvertXESToCSV env XESFilePath CSVFilePath tr = (Returned r, tr ++ efs)
    ∧ ((isValidXESFile p = false ∧ r = Some (InvalidExtension p) ∧ efs = [])
       ∨ (isValidXESFile p = true
          ∧ ((∃ err, os_Open env p = inr err
                     ∧ r = Some (FileOpenError err) ∧ efs = [EOpen p])
             ∨ ∃ xesFile, os_Open env p = inl xesFile
                 ∧ ((∃ err, xml_Decode env xesFile = inr err
                            ∧ r = Some (ParseError err)
                            ∧ efs = [EOpen p; EClose p])
                    ∨ ∃ xes, xml_Decode env xesFile = inl xes
                        ∧ ((∃ err, os_Create env c = Some err
                                   ∧ r = Some (FileCreateError err)
                                   ∧ efs = [EOpen p; ECreate c; EClose p])
                           ∨ (os_Create env c = None
                              ∧ ((∃ err,
                                    write_err env (tr ++ [EOpen p; ECreate c]) = Some err
                                    ∧ r = Some (WriteError "UTF-8 BOM" err)
                                    ∧ efs = [EOpen p; ECreate c; EWriteString c BOM;
                                             EClose c; EClose p])
                                 ∨ (write_err env (tr ++ [EOpen p; ECreate c]) = None
                                    ∧ ∃ rs,
                                        efs = [EOpen p; ECreate c; EWriteString c BOM;
                                               ECsvWrite c
                                                 (collectHeader (range_header env)
                                                    (collectAttributeKeys xes))]
                                              ++ (ECsvWrite c <$> rs)
                                              ++ [EFlush c; EClose c; EClose p]
                                        ∧ ((∃ err,
                                              write_err env
                                                (tr ++ [EOpen p; ECreate c;
                                                        EWriteString c BOM]) = Some err
                                              ∧ r = Some (WriteError "CSV header" err)
                                              ∧ rs = [])
                                           ∨ (write_err env
                                                (tr ++ [EOpen p; ECreate c;
                                                        EWriteString c BOM]) = None
                                              ∧ ((r = None
                                                  ∧ rs = rows
                                                           (collectHeader (range_rows env)
                                                              (collectAttributeKeys xes))
                                                           xes)
                                                 ∨ ∃ err k,
                                                     r = Some
                                                           (WriteError "CSV record" err)
                                                     ∧ (k < length
                                                              (rows
                                                                 (collectHeader
                                                                    (range_rows env)
                                                                    (collectAttributeKeys
                                                                       xes))
                                                                 xes))%nat
                                                     ∧ rs = take (S k)
                                                              (rows
                                                                 (collectHeader
                                                                    (range_rows env)
                                                                    (collectAttributeKeys
                                                                       xes))
                                                                 xes)))))))))))).
Proof.
  intros p c. run_conversion. fold p c.
  destruct (isValidXESFile p) eqn:Hvalid; cbn [negb].
  2: { eexists _, []. rewrite app_nil_r. split; [done|]. by left. }
  destruct (os_Open env p) as [xesFile|err] eqn:Hopen.
  2: { eexists _, _. split; [done|]. right. split; [done|]. left. by exists err. }
  destruct (xml_Decode env xesFile) as [xes|err] eqn:Hdecode.
  2: { eexists _, _. split; [by rewrite <-!app_assoc|].
       right. split; [done|]. right. exists xesFile. split; [done|].
       left. by exists err. }
  destruct (os_Create env c) as [err|] eqn:Hcreate.
  { eexists _, _. split; [by rewrite <-!app_assoc|].
    right. split; [done|]. right. exists xesFile. split; [done|].
    right. exists xes. split; [done|]. left. by exists err. }
  rewrite <-!(app_assoc tr). cbn [app].
  destruct (write_err env (tr ++ [EOpen p; ECreate c])) as [err|] eqn:Hbom.
  { eexists _, _. split; [by rewrite <-!app_assoc|].
    right. split; [done|]. right. exists xesFile. split; [done|].
    right. exists xes. split; [done|]. right. split; [done|]. left. by exists err. }
  rewrite <-!(app_assoc tr). cbn [app].
  destruct (write_err env (tr ++ [EOpen p; ECreate c; EWriteString c BOM]))
    as [err|] eqn:Hheader.
  { eexists _, _. split; [by rewrite <-!app_assoc|].
    right. split; [done|]. right. exists xesFile. split; [done|].
    right. exists xes. split; [done|]. right. split; [done|]. right. split; [done|].
    exists []. split; [done|]. left. by exists err. }
  rewrite writeXESToCSV_write_all. cbn [fst snd].
  rewrite <-?(app_assoc tr). cbn [app].
  match goal with |- context [write_all ?e ?w ?rs ?t] =>
    destruct (write_all_stops e w rs t)
      as (k & _ & [[_ ->]|(Hk & err & _ & ->)]) end;
    cbn [fst snd].
  - eexists None, _. split.
    { rewrite <-!app_assoc. cbn [app]. reflexivity. }
    right. split; [done|]. right. exists xesFile. split; [done|].
    right. exists xes. split; [done|]. right. split; [done|]. right. split; [done|].
    eexists. split; [reflexivity|]. right. split; [done|]. by left.
  - eexists (Some _), _. split.
    { rewrite <-!app_assoc. cbn [app]. reflexivity. }
    right. split; [done|]. right. exists xesFile. split; [done|].
    right. exists xes. split; [done|]. right. split; [done|]. right. split; [done|].
    eexists. split; [reflexivity|]. right. split; [done|]. right.
    by exists err, k.
Qed.

Lemma ConvertXESToCSV_table_inv env XESFilePath CSVFilePath tr r efs :
  ConvertXESToCSV env XESFilePath CSVFilePath tr = (Returned r, tr ++ efs) →
  ∀ r' efs',
    ConvertXESToCSV env XESFilePath CSVFilePath tr = (Returned r', tr ++ efs') →
    r' = r ∧ efs' = efs.
Proof.
  intros Hrun r' efs' Hrun'. rewrite Hrun in Hrun'.
  injection Hrun' as -> Heq. split; [done|]. by apply app_inv_head in Heq.
Qed.

(** The run of a conversion in which nothing fails. *)
Lemma ConvertXESToCSV_succeeds
    env XESFilePath CSVFilePath tr xesFile xes :
  let p := filepath_Clean env XESFilePath in
  let c := filepath_Clean env CSVFilePath in
  let keyMap := collectAttributeKeys xes in
  let keys := collectHeader (range_rows env) keyMap in
  isValidXESFile p = true →
  os_Open env p = inl xesFile →
  xml_Decode env xesFile = inl xes →
  os_Create env c = None →
  (∀ h, write_err env h = None) →
  ConvertXESToCSV env XESFilePath CSVFilePath tr
  = (Returned None,
     tr ++ [EOpen p; ECreate c; EWriteString c BOM;
            ECsvWrite c (collectHeader (range_header env) keyMap)]
        ++ (ECsvWrite c
              <$> (XES.Traces xes ≫= λ trace, row keys trace <$> Trace.Events trace))
        ++ [EFlush c; EClose c; EClose p]).
Proof.
  intros p c keyMap keys Hvalid Hopen Hdecode Hcreate Hok.
  run_conversion. fold p c.
  repeat (first [rewrite Hvalid | rewrite Hopen | rewrite Hdecode
                | rewrite Hcreate | rewrite Hok];
          cbn [negb]; cbv beta iota).
  rewrite writeXESToCSV_write_all, write_all_ok by done.
  cbn [fst snd]. f_equal. rewrite <-!app_assoc. done.
Qed.

(** X12: when the extension is valid, the input opens and decodes, the
    output can be created and no write fails, the conversion returns nil
    and has done this, in this order: opened the input, created the
    output, written the byte order mark, the header and one row for each
    event in document order, flushed the writer, closed the output,
    closed the input. *)
Theorem X12_conversion_without_failure
    env XESFilePath CSVFilePath tr xesFile xes :
  let p := filepath_Clean env XESFilePath in
  let c := filepath_Clean env CSVFilePath in
  let keyMap := collectAttributeKeys xes in
  let keys := collectHeader (range_rows env) keyMap in
  isValidXESFile p = true →
  os_Open env p = inl xesFile →
  xml_Decode env xesFile = inl xes →
  os_Create env c = None →
  (∀ h, write_err env h = None) →
  ConvertXESToCSV env XESFilePath CSVFilePath tr
  = (Returned None,
     tr ++ [EOpen p; ECreate c; EWriteString c BOM;
            ECsvWrite c (collectHeader (range_header env) keyMap)]
        ++ (ECsvWrite c
              <$> (XES.Traces xes ≫= λ trace, row keys trace <$> Trace.Events trace))
        ++ [EFlush c; EClose c; EClose p]).
Proof. apply ConvertXESToCSV_succeeds. Qed.

Lemma X12_conversion_without_failure_witness :
  ConvertXESToCSV
    (env_unix "<log/>" (decode_as log_scenario) range_elements range_elements)
    "log.xes" "log.csv" []
  = (Returned None,
     [EOpen "log.xes"; ECreate "log.csv"; EWriteString "log.csv" BOM;
      ECsvWrite "log.csv" ["case:concept:name"; "activity"; "timestamp"];
      ECsvWrite "log.csv" ["case1"; "start"; ""];
      ECsvWrite "log.csv" ["case1"; ""; "2024-01-01T00:00:00"];
      EFlush "log.csv"; EClose "log.csv"; EClose "log.xes"]).
Proof.
  refine (eq_trans
    (X12_conversion_without_failure
       (env_unix "<log/>" (decode_as log_scenario) range_elements range_elements)
       "log.xes" "log.csv" [] "<log/>" log_scenario _ _ _ _ _) _).
  - vm_compute. reflexivity.
  - reflexivity.
  - reflexivity.
  - reflexivity.
  - intros h. reflexivity.
  - vm_compute. reflexivity.
Defined.

(** X13: the error of a conversion tells whether the output was touched.
    After an invalid extension, a failure to open the input or a parse
    error, nothing was created or written; after every other result,
    nil included, [os.Create] was called on the cleaned output path. *)
Theorem X13_early_errors_leave_the_output_alone
    env XESFilePath CSVFilePath tr r efs :
  ConvertXESToCSV env XESFilePath CSVFilePath tr = (Returned r, tr ++ efs) →
  match r with
  | Some (InvalidExtension _) | Some (FileOpenError _) | Some (ParseError _) =>
      Forall (λ e, modifies e = false) efs
  | Some (FileCreateError _) | Some (WriteError _ _) | None =>
      ECreate (filepath_Clean env CSVFilePath) ∈ efs
  end.
Proof.
  intros Hrun.
  destruct (ConvertXESToCSV_table env XESFilePath CSVFilePath tr)
    as (r' & efs' & Hrun' & Htable).
  destruct (ConvertXESToCSV_table_inv _ _ _ _ _ _ Hrun _ _ Hrun') as [-> ->].
  destruct Htable as [(_ & -> & ->)|(_ & [(err & _ & -> & ->)|(xesFile & _ & H)])].
  { constructor. }
  { by repeat constructor. }
  destruct H as [(err & _ & -> & ->)|(xes & _ & [(err & _ & -> & ->)|(_ & H)])].
  { by repeat constructor. }
  { apply list_elem_of_In. cbn. tauto. }
  destruct H as [(err & _ & -> & ->)|(_ & rs & -> & H)].
  { apply list_elem_of_In. cbn. tauto. }
  assert (ECreate (filepath_Clean env CSVFilePath)
          ∈ [EOpen (filepath_Clean env XESFilePath);
             ECreate (filepath_Clean env CSVFilePath);
             EWriteString (filepath_Clean env CSVFilePath) BOM;
             ECsvWrite (filepath_Clean env CSVFilePath)
               (collectHeader (range_header env) (collectAttributeKeys xes))]
            ++ (ECsvWrite (filepath_Clean env CSVFilePath) <$> rs)
            ++ [EFlush (filepath_Clean env CSVFilePath);
                EClose (filepath_Clean env CSVFilePath);
                EClose (filepath_Clean env XESFilePath)]) as Hin.
  { apply elem_of_app. left. apply list_elem_of_In. cbn. tauto. }
  destruct H as [(err & _ & -> & _)|(_ & [[-> _]|(err & k & -> & _)])]; exact Hin.
Qed.

Lemma X13_early_error_witness :
  Forall (λ e, modifies e = false) [EOpen "log.xes"; EClose "log.xes"].
Proof.
  exact (X13_early_errors_leave_the_output_alone
           (env_unix "<log" decode_fails range_elements range_elements)
           "log.xes" "log.csv" [] (Some (ParseError "unexpected EOF"))
           [EOpen "log.xes"; EClose "log.xes"] eq_refl).
Defined.

Ltac each_effect :=
  repeat (apply Forall_cons; split; [cbn; tauto|]); apply List.Forall_nil.

(** X14: a conversion creates and writes no file but the cleaned output
    path; besides, it only opens and closes the cleaned input path and
    closes the output. *)
Theorem X14_only_the_output_file_is_written
    env XESFilePath CSVFilePath tr r efs :
  ConvertXESToCSV env XESFilePath CSVFilePath tr = (Returned r, tr ++ efs) →
  Forall (λ e,
            if modifies e
            then effect_name e = filepath_Clean env CSVFilePath
            else e = EOpen (filepath_Clean env XESFilePath)
                 ∨ e = EClose (filepath_Clean env XESFilePath)
                 ∨ e = EClose (filepath_Clean env CSVFilePath))
         efs.
Proof.
  intros Hrun.
  destruct (ConvertXESToCSV_table env XESFilePath CSVFilePath tr)
    as (r' & efs' & Hrun' & Htable).
  destruct (ConvertXESToCSV_table_inv _ _ _ _ _ _ Hrun _ _ Hrun') as [-> ->].
  destruct Htable as [(_ & _ & ->)|(_ & [(err & _ & _ & ->)|(xesFile & _ & H)])].
  { constructor. }
  { each_effect. }
  destruct H as [(err & _ & _ & ->)|(xes & _ & [(err & _ & _ & ->)|(_ & H)])].
  { each_effect. }
  { each_effect. }
  destruct H as [(err & _ & _ & ->)|(_ & rs & -> & _)].
  { each_effect. }
  rewrite !Forall_app. split; [|split].
  - each_effect.
  - apply Forall_fmap, Forall_forall. intros record _. done.
  - each_effect.
Qed.

Lemma X14_only_the_output_file_witness :
  Forall (λ e,
            if modifies e
            then effect_name e = "out/log.csv"
            else e = EOpen "log.xes" ∨ e = EClose "log.xes" ∨ e = EClose "out/log.csv")
    [EOpen "log.xes"; ECreate "out/log.csv"; EWriteString "out/log.csv" BOM;
     ECsvWrite "out/log.csv" []; EFlush "out/log.csv"; EClose "out/log.csv";
     EClose "log.xes"].
Proof.
  exact (X14_only_the_output_file_is_written
           (env_unix "<log/>" (decode_as (XES.mk ("", "log") []))
              range_elements range_elements)
           "./log.xes" "out//log.csv" [] None
           [EOpen "log.xes"; ECreate "out/log.csv"; EWriteString "out/log.csv" BOM;
            ECsvWrite "out/log.csv" []; EFlush "out/log.csv"; EClose "out/log.csv";
            EClose "log.xes"] eq_refl).
Defined.

(** X15: whatever a conversion returns, a file that it has opened or
    created is closed again, the output before the input: once the input
    is open, the effects start with its opening and end with its closing;
    once the output is created, its closing comes just before; and once
    the byte order mark is written, the CSV writer is flushed just before
    the output is closed. *)
Theorem X15_files_are_closed_in_reverse_order
    env XESFilePath CSVFilePath tr r efs xesFile :
  let p := filepath_Clean env XESFilePath in
  let c := filepath_Clean env CSVFilePath in
  ConvertXESToCSV env XESFilePath CSVFilePath tr = (Returned r, tr ++ efs) →
  isValidXESFile p = true →
  os_Open env p = inl xesFile →
  ∃ mid,
    efs = EOpen p :: mid ++ [EClose p]
    ∧ ∀ xes,
        xml_Decode env xesFile = inl xes → os_Create env c = None →
        ∃ mid',
          mid = ECreate c :: mid' ++ [EClose c]
          ∧ (write_err env (tr ++ [EOpen p; ECreate c]) = None →
             ∃ mid'', mid' = EWriteString c BOM :: mid'' ++ [EFlush c]).
Proof.
  intros p c Hrun Hvalid Hopen.
  destruct (ConvertXESToCSV_table env XESFilePath CSVFilePath tr)
    as (r' & efs' & Hrun' & Htable).
  destruct (ConvertXESToCSV_table_inv _ _ _ _ _ _ Hrun _ _ Hrun') as [-> ->].
  fold p c in Htable.
  destruct Htable as [(Hinv & _)|(_ & [(err & Herr & _)|(xesFile' & Hopen' & H)])];
    [congruence|congruence|].
  assert (xesFile' = xesFile) as -> by congruence.
  destruct H as [(err & Hdec & _ & ->)|(xes & Hdec & H)].
  { exists []. split; [done|]. intros xes Hxes. congruence. }
  destruct H as [(err & Hcreate & _ & ->)|(Hcreate & H)].
  { exists [ECreate c]. split; [done|]. intros xes' _ Hc. congruence. }
  destruct H as [(err & Hbom & _ & ->)|(Hbom & rs & -> & _)].
  { exists [ECreate c; EWriteString c BOM; EClose c]. split; [done|].
    intros xes' _ _. exists [EWriteString c BOM]. split; [done|]. congruence. }
  set (header := collectHeader (range_header env) (collectAttributeKeys xes)).
  set (body := ECsvWrite c header :: (ECsvWrite c <$> rs)).
  exists (ECreate c :: (EWriteString c BOM :: body ++ [EFlush c]) ++ [EClose c]).
  split.
  { unfold body. cbn [app]. do 4 f_equal. rewrite <-!app_assoc. done. }
  intros xes' _ _. exists (EWriteString c BOM :: body ++ [EFlush c]).
  split; [done|]. intros _. by exists body.
Qed.

Lemma X15_files_are_closed_witness :
  ∃ mid,
    [EOpen "log.xes"; ECreate "log.csv"; EWriteString "log.csv" BOM;
     ECsvWrite "log.csv" []; EFlush "log.csv"; EClose "log.csv"; EClose "log.xes"]
    = EOpen "log.xes" :: mid ++ [EClose "log.xes"].
Proof.
  destruct (X15_files_are_closed_in_reverse_order
              (env_unix "<log/>" (decode_as (XES.mk ("", "log") []))
                 range_elements range_elements)
              "log.xes" "log.csv" [] None
              [EOpen "log.xes"; ECreate "log.csv"; EWriteString "log.csv" BOM;
               ECsvWrite "log.csv" []; EFlush "log.csv"; EClose "log.csv";
               EClose "log.xes"] "<log/>" eq_refl eq_refl eq_refl)
    as (mid & Hmid & _).
  exists mid. exact Hmid.
Defined.

(** X16: a write error tells how far the output got.  With the error of
    the byte order mark no record was handed to the CSV writer; with the
    error of the header, the header alone; with the error of a record,
    the header and at least one row, the last of which is the one whose
    write failed. *)
Theorem X16_write_error_tells_how_far
    env XESFilePath CSVFilePath tr what err efs :
  ConvertXESToCSV env XESFilePath CSVFilePath tr
  = (Returned (Some (WriteError what err)), tr ++ efs) →
  (what = "UTF-8 BOM" ∧ csv_records efs = [])
  ∨ (what = "CSV header" ∧ ∃ header, csv_records efs = [header])
  ∨ (what = "CSV record"
     ∧ ∃ header rs row, csv_records efs = header :: rs ++ [row]).
Proof.
  intros Hrun.
  destruct (ConvertXESToCSV_table env XESFilePath CSVFilePath tr)
    as (r' & efs' & Hrun' & Htable).
  destruct (ConvertXESToCSV_table_inv _ _ _ _ _ _ Hrun _ _ Hrun') as [-> ->].
  destruct Htable as [(_ & [=] & _)|(_ & [(e & _ & [=] & _)|(xesFile & _ & H)])].
  destruct H as [(e & _ & [=] & _)|(xes & _ & [(e & _ & [=] & _)|(_ & H)])].
  destruct H as [(e & _ & [= -> ->] & ->)|(_ & rs & -> & H)].
  { left. by split. }
  right.
  rewrite !csv_records_app, csv_records_ECsvWrite. cbn [csv_records omap app].
  rewrite app_nil_r.
  destruct H as [(e & _ & [= -> ->] & ->)|(_ & [[[=] _]|(e & k & [= -> ->] & Hk & ->)])].
  { left. split; [done|]. by eexists. }
  right. split; [done|].
  set (taken := take (S k)
                  (rows (collectHeader (range_rows env) (collectAttributeKeys xes))
                     xes)).
  assert (taken ≠ []) as Hne.
  { unfold taken. intros Hnil. apply (f_equal length) in Hnil.
    rewrite length_take in Hnil. cbn [length] in Hnil. lia. }
  destruct (last_is_Some taken) as [_ Hlast]. destruct (Hlast Hne) as [row Hrow].
  apply last_Some in Hrow as [rs' ->]. by eexists _, rs', row.
Qed.

Lemma X16_write_error_witness :
  csv_records
    [EOpen "log.xes"; ECreate "log.csv"; EWriteString "log.csv" BOM;
     EClose "log.csv"; EClose "log.xes"] = [].
Proof.
  destruct (X16_write_error_tells_how_far
              {| filepath_Clean := filepath.Clean;
                 os_Open := λ _, inl "<log/>";
                 xml_Decode := decode_as log_scenario;
                 os_Create := λ _, None;
                 write_err := λ _, Some "disk full";
                 range_header := range_elements;
                 range_rows := range_elements |}
              "log.xes" "log.csv" [] "UTF-8 BOM" "disk full"
              [EOpen "log.xes"; ECreate "log.csv"; EWriteString "log.csv" BOM;
               EClose "log.csv"; EClose "log.xes"] eq_refl)
    as [[_ H]|[[H _]|[H _]]]; [exact H|discriminate H|discriminate H].
Defined.

(** X17: no record reaches the CSV writer before the byte order mark is
    written to the output file. *)
Theorem X17_byte_order_mark_comes_first
    env XESFilePath CSVFilePath tr r efs before name record after :
  ConvertXESToCSV env XESFilePath CSVFilePath tr = (Returned r, tr ++ efs) →
  efs = before ++ ECsvWrite name record :: after →
  EWriteString (filepath_Clean env CSVFilePath) BOM ∈ before.
Proof.
  intros Hrun Hefs.
  destruct (ConvertXESToCSV_table env XESFilePath CSVFilePath tr)
    as (r' & efs' & Hrun' & Htable).
  destruct (ConvertXESToCSV_table_inv _ _ _ _ _ _ Hrun _ _ Hrun') as [-> ->].
  assert (Hin : ECsvWrite name record ∈ efs).
  { rewrite Hefs. apply elem_of_app. right. by left. }
  assert (Hnone : ∀ l, Forall (λ e, csv_records [e] = []) l →
                       ECsvWrite name record ∉ l).
  { intros l Hl Hmem. rewrite Forall_forall in Hl. by apply Hl in Hmem. }
  destruct Htable as [(_ & _ & ->)|(_ & [(err & _ & _ & ->)|(xesFile & _ & H)])].
  { by apply elem_of_nil in Hin. }
  { exfalso. eapply Hnone; [|exact Hin]. by repeat constructor. }
  destruct H as [(err & _ & _ & ->)|(xes & _ & [(err & _ & _ & ->)|(_ & H)])].
  { exfalso. eapply Hnone; [|exact Hin]. by repeat constructor. }
  { exfalso. eapply Hnone; [|exact Hin]. by repeat constructor. }
  destruct H as [(err & _ & _ & ->)|(_ & rs & Heq & _)].
  { exfalso. eapply Hnone; [|exact Hin]. by repeat constructor. }
  rewrite Hefs in Heq. cbn [app] in Heq.
  destruct before as [|e1 [|e2 [|e3 before]]]; cbn [app] in Heq;
    try (by injection Heq; intros; discriminate).
  injection Heq as _ _ -> _. apply list_elem_of_In. cbn. tauto.
Qed.

Lemma X17_byte_order_mark_witness :
  EWriteString "log.csv" BOM
  ∈ [EOpen "log.xes"; ECreate "log.csv"; EWriteString "log.csv" BOM].
Proof.
  exact (X17_byte_order_mark_comes_first
           (env_unix "<log/>" (decode_as (XES.mk ("", "log") []))
              range_elements range_elements)
           "log.xes" "log.csv" [] None
           [EOpen "log.xes"; ECreate "log.csv"; EWriteString "log.csv" BOM;
            ECsvWrite "log.csv" []; EFlush "log.csv"; EClose "log.csv";
            EClose "log.xes"]
           [EOpen "log.xes"; ECreate "log.csv"; EWriteString "log.csv" BOM]
           "log.csv" []
           [EFlush "log.csv"; EClose "log.csv"; EClose "log.xes"]
           eq_refl eq_refl).
Defined.

(** ** The table as a whole *)

(** X18: when the two loops over the key map run in the same order and
    nothing fails, the rows fit the header that is written: the records
    handed to the CSV writer are the header and then, event after event,
    the record built with that very header as its columns, so that the
    cell under a column of the header holds the trimmed value of the last
    attribute written under that name, or nothing. *)
Theorem X18_same_order_puts_values_under_their_columns
    env XESFilePath CSVFilePath tr xesFile xes :
  let keyMap := collectAttributeKeys xes in
  isValidXESFile (filepath_Clean env XESFilePath) = true →
  os_Open env (filepath_Clean env XESFilePath) = inl xesFile →
  xml_Decode env xesFile = inl xes →
  os_Create env (filepath_Clean env CSVFilePath) = None →
  (∀ h, write_err env h = None) →
  range (range_rows env) keyMap = range (range_header env) keyMap →
  ∃ header,
    csv_records (ConvertXESToCSV env XESFilePath CSVFilePath tr).2
    = csv_records tr
      ++ header
      :: (XES.Traces xes ≫= λ trace, row header trace <$> Trace.Events trace)
    ∧ ∀ trace event column,
        column ∈ header →
        event_record header trace event = Returned (row header trace event)
        ∧ under header (row header trace event) column
          = Some (default "" (strings.TrimSpace
                                <$> last_value column (event_writes trace event))).
Proof.
  intros keyMap Hvalid Hopen Hdecode Hcreate Hok Hsame.
  exists (collectHeader (range_header env) keyMap). split.
  - rewrite (ConvertXESToCSV_succeeds env XESFilePath CSVFilePath tr xesFile xes)
      by done.
    cbn [snd]. fold keyMap.
    assert (collectHeader (range_rows env) keyMap
            = collectHeader (range_header env) keyMap) as ->.
    { by rewrite !collectHeader_fmap, Hsame. }
    rewrite !csv_records_app, csv_records_ECsvWrite. cbn.
    by rewrite !app_nil_r.
  - intros trace event column [i Hp]%position_is_Some.
    split; [apply event_record_row|].
    unfold under. rewrite Hp. cbn.
    rewrite row_lookup by (by eapply position_lt).
    rewrite (last_write_last_value _ i column); [done| |done].
    by apply position_Some in Hp as [? _].
Qed.

Lemma X18_same_order_witness :
  ∃ header,
    csv_records
      (ConvertXESToCSV
         (env_unix "<log/>" (decode_as log_scenario)
            (range_rotated 1) (range_rotated 1))
         "log.xes" "log.csv" []).2
    = header
      :: (XES.Traces log_scenario
            ≫= λ trace, row header trace <$> Trace.Events trace).
Proof.
  destruct (X18_same_order_puts_values_under_their_columns
              (env_unix "<log/>" (decode_as log_scenario)
                 (range_rotated 1) (range_rotated 1))
              "log.xes" "log.csv" [] "<log/>" log_scenario)
    as (header & Hrecords & _).
  - vm_compute. reflexivity.
  - reflexivity.
  - reflexivity.
  - reflexivity.
  - intros h. reflexivity.
  - reflexivity.
  - exists header. exact Hrecords.
Defined.

(** X19: when no key of the log has surrounding white space, every
    attribute finds its column: for each write of each event of the log,
    [findIndex] returns the index of the one column that has the key of
    the attribute (renamed for an attribute of the trace), so that no
    value is left out; and the header names no column twice. *)
Theorem X19_clean_keys_lose_no_value ρ xes :
  (∀ k, k ∈ log_keys xes → strings.TrimSpace k = k) →
  let keys := collectHeader ρ (collectAttributeKeys xes) in
  NoDup keys
  ∧ ∀ trace event key value,
      trace ∈ XES.Traces xes → event ∈ Trace.Events trace →
      (key, value) ∈ event_writes trace event →
      ∃ i : nat,
        findIndex keys key = Z.of_nat i
        ∧ keys !! i = Some key
        ∧ ∀ j, keys !! j = Some key → j = i.
Proof.
  intros Hclean keys.
  destruct (collectHeader_clean ρ (collectAttributeKeys xes)) as [Heq Hnd].
  { intros k Hk. by apply Hclean, elem_of_collectAttributeKeys. }
  split; [done|]. intros trace event key value Htrace Hevent Hkv.
  assert (Hkey : key ∈ keys).
  { unfold keys. rewrite Heq, elem_of_range, elem_of_collectAttributeKeys.
    by apply (event_writes_log_keys xes trace event (key, value)). }
  destruct (position_is_Some keys key Hkey) as [i Hp].
  exists i. split; [by rewrite findIndex_position, Hp|].
  apply position_Some in Hp as [Hi _]. split; [done|].
  intros j Hj. by eapply NoDup_lookup.
Qed.

Lemma X19_clean_keys_witness :
  NoDup (collectHeader range_elements (collectAttributeKeys log_scenario)).
Proof.
  apply (X19_clean_keys_lose_no_value range_elements log_scenario).
  intros k Hk. apply list_elem_of_In in Hk. cbn in Hk.
  destruct Hk as [<-|[<-|[<-|[]]]]; by vm_compute.
Defined.
